(** * Beta-Geometric customer-churn notebooks: a shallow embedding

    The notebooks embedded here:
    - [Customer Churn Estimation.ipynb] (module [BG]),
    - [Customer Churn Estimation with Loyalty and Novelty Effects.ipynb]
      (module [LN]),
    - [Simple Friend Recommender.ipynb] (module [FR]), which shares
      nothing with the other two.

    Numbers are real numbers extended with the three IEEE special values
    (rounding and signed zeros are left out), so that [np.log 0 = -inf] and
    [0 * inf = nan] are what numpy makes them.  [scipy.special.beta] is
    Euler's Beta function on the positive quadrant and a parameter
    elsewhere; [scipy.optimize.minimize] is a parameter. *)

From Stdlib Require Import Reals Lra Lia List ZArith Bool ClassicalEpsilon.
Import ListNotations.
Open Scope R_scope.

(* ================================================================== *)
(** ** numpy float values *)

Module NumPy.

(** A float64 value without rounding: a real, or one of the specials. *)
Inductive npfloat : Type :=
| Fin (r : R)
| PInf
| NInf
| NaN.

Definition is_finite (v : npfloat) : Prop :=
  match v with Fin _ => True | _ => False end.

(** An infinity carrying the sign of [r * s], where [s] is [1] for
    [pos = true] and [-1] otherwise; [nan] when [r = 0]. *)
Definition signed_inf (r : R) (pos : bool) : npfloat :=
  if Req_dec_T r 0 then NaN
  else if Rlt_dec 0 r then (if pos then PInf else NInf)
       else (if pos then NInf else PInf).

Definition fneg (a : npfloat) : npfloat :=
  match a with
  | Fin r => Fin (- r)
  | PInf => NInf
  | NInf => PInf
  | NaN => NaN
  end.

Definition fadd (a b : npfloat) : npfloat :=
  match a, b with
  | NaN, _ | _, NaN => NaN
  | Fin x, Fin y => Fin (x + y)
  | PInf, NInf | NInf, PInf => NaN
  | PInf, _ | _, PInf => PInf
  | NInf, _ | _, NInf => NInf
  end.

Definition fsub (a b : npfloat) : npfloat := fadd a (fneg b).

Definition fmul (a b : npfloat) : npfloat :=
  match a, b with
  | NaN, _ | _, NaN => NaN
  | Fin x, Fin y => Fin (x * y)
  | Fin x, PInf | PInf, Fin x => signed_inf x true
  | Fin x, NInf | NInf, Fin x => signed_inf x false
  | PInf, PInf | NInf, NInf => PInf
  | PInf, NInf | NInf, PInf => NInf
  end.

(** Division; a zero divisor is read as [+0]. *)
Definition fdiv (a b : npfloat) : npfloat :=
  match a, b with
  | NaN, _ | _, NaN => NaN
  | Fin x, Fin y => if Req_dec_T y 0 then signed_inf x true else Fin (x / y)
  | Fin _, (PInf | NInf) => Fin 0
  | PInf, Fin y => if Rlt_dec y 0 then NInf else PInf
  | NInf, Fin y => if Rlt_dec y 0 then PInf else NInf
  | (PInf | NInf), (PInf | NInf) => NaN
  end.

(** [np.log]: [-inf] at zero, [nan] below it. *)
Definition log (a : npfloat) : npfloat :=
  match a with
  | Fin x => if Rlt_dec 0 x then Fin (ln x)
             else if Req_dec_T x 0 then NInf else NaN
  | PInf => PInf
  | NInf => NaN
  | NaN => NaN
  end.

(** [np.maximum] on finite values. *)
Definition maximum (a b : R) : R := Rmax a b.

(** [np.arange(lo, hi)] on integers. *)
Definition arange (lo hi : nat) : list nat := seq lo (hi - lo).

(** Running sum of finite values ([cumsum] of a finite array or Series). *)
Fixpoint cumsum_from (acc : R) (l : list R) : list R :=
  match l with
  | [] => []
  | v :: tl => (acc + v) :: cumsum_from (acc + v) tl
  end.

Definition cumsum (l : list R) : list R := cumsum_from 0 l.

(** [Series.cumsum] of pandas, which skips [nan] entries: such an entry
    stays [nan] in the output and leaves the running sum as it was. *)
Fixpoint pd_cumsum_from (acc : npfloat) (l : list npfloat) : list npfloat :=
  match l with
  | [] => []
  | NaN :: tl => NaN :: pd_cumsum_from acc tl
  | v :: tl => fadd acc v :: pd_cumsum_from (fadd acc v) tl
  end.

Definition pd_cumsum (l : list npfloat) : list npfloat :=
  pd_cumsum_from (Fin 0) l.

(** Python's builtin [sum]: starts from [0] and adds from the left. *)
Definition sum (l : list npfloat) : npfloat := fold_left fadd l (Fin 0).

End NumPy.
Import NumPy.

(* ================================================================== *)
(** ** Euler's Beta function

    [scipy.special.beta] is a library function.  On the positive quadrant
    it computes Euler's Beta function, defined here as a limit of Euler's
    product
    [B(x,y) = (x+y)/(x y) * prod_{k>=1} k (k+x+y) / ((k+x) (k+y))]. *)

Module BetaFunction.

(** The [k]-th factor of the product. *)
Definition euler_factor (k : nat) (x y : R) : R :=
  (INR k * (INR k + x + y)) / ((INR k + x) * (INR k + y)).

Fixpoint euler_prod (n : nat) (x y : R) : R :=
  match n with
  | O => 1
  | S m => euler_prod m x y * euler_factor (S m) x y
  end.

Definition Beta_partial (x y : R) (n : nat) : R :=
  (x + y) / (x * y) * euler_prod n x y.

(** The limit of a real sequence, when it has one. *)
Definition lim_seq (u : nat -> R) : R :=
  epsilon (inhabits 0) (fun l => Un_cv u l).

Definition Beta (x y : R) : R := lim_seq (Beta_partial x y).

End BetaFunction.
Import BetaFunction.

(* ================================================================== *)
(** ** Python values shared by the two notebooks *)

Module Py.

(** [InvalidInputError] is the specification's name for a malformed
    survival sequence; [KeyError] is what [.ix] raises on a label the
    frame does not have. *)
Inductive exn : Type :=
| InvalidInputError
| KeyError.

(** What a call gives back: a value, or a raised exception. *)
Inductive result (A : Type) : Type :=
| Returns (a : A)
| Raises (e : exn).
Arguments Returns {A} a.
Arguments Raises {A} e.

(** The [method] argument of [optimize.minimize]. *)
Inductive method : Type := Nelder_Mead.

(** The fields of scipy's [OptimizeResult] the notebooks can read. *)
Record OptimizeResult (P : Type) : Type := mkResult {
  x : P;
  success : bool;
  fun_ : npfloat
}.
Arguments mkResult {P} _ _ _.
Arguments x {P} _.
Arguments success {P} _.
Arguments fun_ {P} _.

(** [optimize.minimize(fun, x0, method=..., args=(Data,))] as a function
    of its four arguments.  It returns an [OptimizeResult]: a search that
    does not converge sets [success] to [False]. *)
Definition minimizer (D : Type) : Type :=
  forall P : Type, (P -> D -> npfloat) -> P -> method -> D ->
                   OptimizeResult P.

End Py.

(** ** The survival table: a pandas DataFrame, row by row *)

(** One row of [Data].  [FormatBGData] labels each row with its period, so
    [Period] also stands for the row's index label. *)
Record row : Type := mkRow {
  Remaining : npfloat;
  Cust_Lost : npfloat;
  Period : nat;
  Final_Period : Z
}.

Definition DataFrame : Type := list row.

(** [Series.diff()]: [nan] on the first row, then the step from the row
    before. *)
Fixpoint diff_from (prev : npfloat) (l : list npfloat) : list npfloat :=
  match l with
  | [] => []
  | v :: tl => fsub v prev :: diff_from v tl
  end.

Definition diff (l : list npfloat) : list npfloat :=
  match l with
  | [] => []
  | v :: tl => NaN :: diff_from v tl
  end.

(** [fillna(c)]. *)
Definition fillna (c : R) (l : list npfloat) : list npfloat :=
  map (fun v => match v with NaN => Fin c | _ => v end) l.

(** The frame with the four columns side by side. *)
Fixpoint frame (rem lost : list npfloat) (per : list nat) (fin : list Z)
  : DataFrame :=
  match rem, lost, per, fin with
  | r :: rem', l :: lost', p :: per', f :: fin' =>
      mkRow r l p f :: frame rem' lost' per' fin'
  | _, _, _, _ => []
  end.

(** [Data.ix[label, column]]: the row labelled [label], if there is one. *)
Definition ix (Data : DataFrame) (label : nat) : option row :=
  find (fun r => Nat.eqb (Period r) label) Data.

(** The [Final_Period] column read as a truth value. *)
Definition is_final_period (r : row) : bool := Z.eqb (Final_Period r) 1.

(** ** scipy.special *)

Module SciPy.

(** [special.beta(a, b)] is Euler's Beta function on the positive
    quadrant.  What it returns elsewhere is the library's business:
    [beta_ext] stands for it. *)
Definition special_beta (beta_ext : R -> R -> npfloat) (a b : R)
  : npfloat :=
  if Rlt_dec 0 a then
    if Rlt_dec 0 b then Fin (Beta a b) else beta_ext a b
  else beta_ext a b.

End SciPy.

(* ------------------------------------------------------------------ *)
(** ** Customer Churn Estimation.ipynb *)

Module BG.
Section Notebook.

Variable beta_ext : R -> R -> npfloat.
Variable minimize : Py.minimizer DataFrame.

Local Abbreviation special_beta := (SciPy.special_beta beta_ext).

(** [[
def FormatBGData(RawRemaining):
    Data = pd.DataFrame(RawRemaining, columns=['Remaining'])
    Data['Cust_Lost'] = pd.DataFrame(-1*Data.diff().fillna(0))
    Data['Period'] = np.arange(len(Data))
    Data['Final_Period']=0
    Data.ix[len(Data)-1,'Final_Period']=1
    Data = Data[Data.Period != 0]
    return Data
]]
    The function has no [raise] and checks nothing.  On the empty list
    pandas is asked for the label [-1]; that one input is outside this
    model, which gives it the empty frame. *)
Definition FormatBGData (RawRemaining : list R) : Py.result DataFrame :=
  let col_Remaining := map Fin RawRemaining in
  let col_Cust_Lost :=
    map (fmul (Fin (-1))) (fillna 0 (diff col_Remaining)) in
  let col_Period := arange 0 (length RawRemaining) in
  let col_Final_Period :=
    map (fun p => if Nat.eqb p (length RawRemaining - 1) then 1%Z else 0%Z)
        col_Period in
  let Data := frame col_Remaining col_Cust_Lost col_Period col_Final_Period in
  Py.Returns (filter (fun r => negb (Nat.eqb (Period r) 0)) Data).

(** One row of [LogLikelihood] in [NLogL]. *)
Definition LogLikelihood (Gamma Delta : R) (r : row) : npfloat :=
  fadd
    (fmul (Cust_Lost r)
          (log (fdiv (special_beta (Gamma + 1)
                                   (Delta + INR (Period r) - 1))
                     (special_beta Gamma Delta))))
    (fmul (Fin (IZR (Final_Period r)))
          (fmul (Remaining r)
                (log (fdiv (special_beta Gamma (Delta + INR (Period r)))
                           (special_beta Gamma Delta))))).

(** [[
    def NLogL(Params, Data):
        (Gamma, Delta) = Params
        LogLikelihood = Data['Cust_Lost'] * np.log(special.beta(Gamma + 1, Delta + Data['Period'] - 1) / special.beta(Gamma, Delta)) + (Data['Final_Period'] * (Data['Remaining'] * np.log(special.beta(Gamma, Delta + Data['Period']) / special.beta(Gamma, Delta))))
        return -sum(LogLikelihood)
]] *)
Definition NLogL (Params : R * R) (Data : DataFrame) : npfloat :=
  let '(Gamma, Delta) := Params in
  fneg (NumPy.sum (map (LogLikelihood Gamma Delta) Data)).

(** [[
def FitBGModel(Data):
    ...
    return optimize.minimize(NLogL, (1,1), method = 'Nelder-Mead',args = (Data,)).x
]] *)
Definition FitBGModel (Data : DataFrame) : R * R :=
  Py.x (minimize (R * R)%type NLogL (1, 1) Py.Nelder_Mead Data).

(** One row of the frame [ExtrapolateBG] returns, under its index. *)
Record out_row : Type := mkOut {
  Index : nat;
  Out_Cust_Lost : npfloat;
  Out_Remaining : npfloat
}.

Fixpoint out_frame (idx : list nat) (lost rem : list npfloat)
  : list out_row :=
  match idx, lost, rem with
  | i :: idx', l :: lost', r :: rem' =>
      mkOut i l r :: out_frame idx' lost' rem'
  | _, _, _ => []
  end.

(** [[
def ExtrapolateBG(Initial_Pop, Gamma, Delta,Model_Periods):
    Output = pd.DataFrame({'Cust_Lost' : special.beta(Gamma+1, Delta + np.arange(1,Model_Periods+1) -1)/special.beta(Gamma, Delta)},
                         index=np.arange(1,Model_Periods+1))
    Output['Cust_Lost'] = Output['Cust_Lost'].cumsum() * Initial_Pop
    Output['Remaining'] = Initial_Pop - Output['Cust_Lost']
    return Output
]] *)
Definition ExtrapolateBG (Initial_Pop : npfloat) (Gamma Delta : R)
    (Model_Periods : nat) : list out_row :=
  let index := arange 1 (Model_Periods + 1) in
  let Cust_Lost0 :=
    map (fun t => fdiv (special_beta (Gamma + 1) (Delta + INR t - 1))
                       (special_beta Gamma Delta))
        (arange 1 (Model_Periods + 1)) in
  let col_Cust_Lost :=
    map (fun v => fmul v Initial_Pop) (pd_cumsum Cust_Lost0) in
  let col_Remaining := map (fun v => fsub Initial_Pop v) col_Cust_Lost in
  out_frame index col_Cust_Lost col_Remaining.

(** [[
Initial_Pop = Data.ix[1,'Remaining'] + Data.ix[1,'Cust_Lost']
]] *)
Definition Initial_Pop (Data : DataFrame) : Py.result npfloat :=
  match ix Data 1 with
  | Some r => Py.Returns (fadd (Remaining r) (Cust_Lost r))
  | None => Py.Raises Py.KeyError
  end.

End Notebook.
End BG.

(* ------------------------------------------------------------------ *)
(** ** Customer Churn Estimation with Loyalty and Novelty Effects.ipynb *)

Module LN.
Section Notebook.

Variable beta_ext : R -> R -> npfloat.
Variable minimize : Py.minimizer DataFrame.

Local Abbreviation special_beta := (SciPy.special_beta beta_ext).

(** [FormatBGData] has the same text as in the first notebook. *)
Definition FormatBGData (RawRemaining : list R) : Py.result DataFrame :=
  BG.FormatBGData RawRemaining.

(** [[
RawData = [1000,800,275,250,220]
]] *)
Definition RawData : list R := [1000; 800; 275; 250; 220].

(** [[
Initial_Pop = Data.ix[1,'Remaining'] + Data.ix[1,'Cust_Lost']
]] *)
Definition Initial_Pop (Data : DataFrame) : Py.result npfloat :=
  match ix Data 1 with
  | Some r => Py.Returns (fadd (Remaining r) (Cust_Lost r))
  | None => Py.Raises Py.KeyError
  end.

(** The rows of [Data] beside the two updated deltas. *)
Fixpoint zip (Data : DataFrame) (d1 d2 : list R)
  : list (row * R * R) :=
  match Data, d1, d2 with
  | r :: Data', a :: d1', b :: d2' => (r, a, b) :: zip Data' d1' d2'
  | _, _, _ => []
  end.

(** [[
    DeltaUpd1 = Delta + np.maximum(0, 1 + (Alpha * (Data['Period'] - 1))).cumsum()
    DeltaUpd2 = Delta + np.maximum(0, 1 + (Alpha * Data['Period'])).cumsum()
]] *)
Definition DeltaUpd1 (Delta Alpha : R) (Data : DataFrame) : list R :=
  map (Rplus Delta)
      (cumsum (map (fun r => maximum 0 (1 + Alpha * (INR (Period r) - 1)))
                   Data)).

Definition DeltaUpd2 (Delta Alpha : R) (Data : DataFrame) : list R :=
  map (Rplus Delta)
      (cumsum (map (fun r => maximum 0 (1 + Alpha * INR (Period r))) Data)).

(** One row of [LogLikelihood] in [NLogL_Alpha], after the [+=]. *)
Definition LogLikelihood_Alpha (Gamma Delta : R) (rd : row * R * R)
  : npfloat :=
  let '(r, DeltaUpd1, DeltaUpd2) := rd in
  fadd
    (fmul (Cust_Lost r)
          (log (fdiv (fsub (special_beta Gamma DeltaUpd1)
                           (special_beta Gamma DeltaUpd2))
                     (special_beta Gamma Delta))))
    (fmul (fmul (Fin (IZR (Final_Period r))) (Remaining r))
          (log (fdiv (special_beta Gamma DeltaUpd2)
                     (special_beta Gamma Delta)))).

(** [[
def NLogL_Alpha(Params, Data):
    (Gamma,Delta,Alpha) = Params
    DeltaUpd1 = ...
    DeltaUpd2 = ...
    LogLikelihood = Data['Cust_Lost'] * np.log ((special.beta(Gamma, DeltaUpd1) - special.beta(Gamma, DeltaUpd2))/special.beta(Gamma,Delta))
    LogLikelihood += Data['Final_Period'] * Data['Remaining'] * np.log((special.beta(Gamma, DeltaUpd2))/special.beta(Gamma,Delta))
    return -sum(LogLikelihood)
]] *)
Definition NLogL_Alpha (Params : R * R * R) (Data : DataFrame)
  : npfloat :=
  let '(Gamma, Delta, Alpha) := Params in
  let DeltaUpd1 := DeltaUpd1 Delta Alpha Data in
  let DeltaUpd2 := DeltaUpd2 Delta Alpha Data in
  fneg (NumPy.sum (map (LogLikelihood_Alpha Gamma Delta)
                       (zip Data DeltaUpd1 DeltaUpd2))).

(** One row of [LogLikelihood] in [NLogL], after the [+=]. *)
Definition LogLikelihood (Gamma Delta : R) (r : row) : npfloat :=
  fadd
    (fmul (Cust_Lost r)
          (log (fdiv (special_beta (Gamma + 1)
                                   (Delta + INR (Period r) - 1))
                     (special_beta Gamma Delta))))
    (fmul (Fin (IZR (Final_Period r)))
          (fmul (Remaining r)
                (log (fdiv (special_beta Gamma (Delta + INR (Period r)))
                           (special_beta Gamma Delta))))).

(** [[
def NLogL(Params, Data):
    (Gamma, Delta) = Params
    LogLikelihood = Data['Cust_Lost'] * np.log(special.beta(Gamma + 1, Delta + Data['Period'] - 1) / special.beta(Gamma, Delta))
    LogLikelihood += (Data['Final_Period'] * (Data['Remaining'] * np.log(special.beta(Gamma, Delta + Data['Period']) / special.beta(Gamma, Delta))))
    return -sum(LogLikelihood)
]] *)
Definition NLogL (Params : R * R) (Data : DataFrame) : npfloat :=
  let '(Gamma, Delta) := Params in
  fneg (NumPy.sum (map (LogLikelihood Gamma Delta) Data)).

(** [[
def FitBGModel_Base(Data):
    return optimize.minimize(NLogL, (1,1), method = 'Nelder-Mead',args = (Data,))

def FitBGModel_Alpha(Data):
    return optimize.minimize(NLogL_Alpha, (1,1,0), method = 'Nelder-Mead',args = (Data,))
]] *)
Definition FitBGModel_Base (Data : DataFrame)
  : Py.OptimizeResult (R * R) :=
  minimize (R * R)%type NLogL (1, 1) Py.Nelder_Mead Data.

Definition FitBGModel_Alpha (Data : DataFrame)
  : Py.OptimizeResult (R * R * R) :=
  minimize (R * R * R)%type NLogL_Alpha (1, 1, 0) Py.Nelder_Mead Data.

(** One row of the frame [ExtrapolateBG] returns: it has one column. *)
Record out_row : Type := mkOut {
  Index : nat;
  Out_Remaining : npfloat
}.

Fixpoint out_frame (idx : list nat) (rem : list npfloat)
  : list out_row :=
  match idx, rem with
  | i :: idx', r :: rem' => mkOut i r :: out_frame idx' rem'
  | _, _ => []
  end.

(** [[
def ExtrapolateBG(Initial_Pop, Gamma, Delta, Alpha, Model_Periods):
    time = np.arange(1,Model_Periods+1)
    DeltaUpd2 = Delta + np.maximum(0, 1 + (Alpha * time )).cumsum()
    Output = pd.DataFrame({'Remaining' : (special.beta(Gamma, DeltaUpd2))/special.beta(Gamma,Delta)},
                         index=np.arange(1,Model_Periods+1))
    Output['Remaining'] = Initial_Pop * Output['Remaining']
    return Output
]] *)
Definition ExtrapolateBG (Initial_Pop : npfloat)
    (Gamma Delta Alpha : R) (Model_Periods : nat) : list out_row :=
  let time := arange 1 (Model_Periods + 1) in
  let DeltaUpd2 :=
    map (Rplus Delta)
        (cumsum (map (fun t => maximum 0 (1 + Alpha * INR t)) time)) in
  let Remaining0 :=
    map (fun d => fdiv (special_beta Gamma d) (special_beta Gamma Delta))
        DeltaUpd2 in
  let col_Remaining := map (fun v => fmul Initial_Pop v) Remaining0 in
  out_frame (arange 1 (Model_Periods + 1)) col_Remaining.

End Notebook.
End LN.

(* ================================================================== *)
(** ** The specification's formulas, in its own words *)

Module Spec.

(** Sum of [f t] over the periods listed in [l]. *)
Definition big_sum (f : nat -> R) (l : list nat) : R :=
  fold_right (fun t acc => f t + acc) 0 l.

(** The SurvivalTable of a raw sequence [raw] (periods [0..T]):
    [remaining[t]] and [lost[t] = remaining[t-1] - remaining[t]]. *)
Definition final_period (raw : list R) : nat := length raw - 1.
Definition remaining (raw : list R) (t : nat) : R := nth t raw 0.
Definition lost (raw : list R) (t : nat) : R :=
  remaining raw (t - 1) - remaining raw t.
Definition initial_population (raw : list R) : R := remaining raw 0.

(** [NLL = - [ sum_t lost[t] * log(B(gamma+1, delta+t-1) / B(gamma,delta))
               + remaining[T] * log(B(gamma, delta+T) / B(gamma,delta)) ]]. *)
Definition NLL_base (raw : list R) (gamma delta : R) : R :=
  let T := final_period raw in
  - (big_sum (fun t => lost raw t *
                       ln (Beta (gamma + 1) (delta + INR t - 1) /
                           Beta gamma delta))
             (seq 1 T)
     + remaining raw T * ln (Beta gamma (delta + INR T) / Beta gamma delta)).

(** [cumA[t] = sum_{i=1}^{t-1} max(0, 1 + alpha*i)] and
    [cumB[t] = sum_{i=1}^{t} max(0, 1 + alpha*i)]. *)
Definition clipped (alpha : R) (i : nat) : R := Rmax 0 (1 + alpha * INR i).
Definition cumA (alpha : R) (t : nat) : R :=
  big_sum (clipped alpha) (seq 1 (t - 1)).
Definition cumB (alpha : R) (t : nat) : R :=
  big_sum (clipped alpha) (seq 1 t).

(** The extended negative log-likelihood of section 4.2. *)
Definition NLL_extended (raw : list R) (gamma delta alpha : R) : R :=
  let T := final_period raw in
  - (big_sum (fun t => lost raw t *
                       ln ((Beta gamma (delta + cumA alpha t) -
                            Beta gamma (delta + cumB alpha t)) /
                           Beta gamma delta))
             (seq 1 T)
     + remaining raw T *
       ln (Beta gamma (delta + cumB alpha T) / Beta gamma delta)).

(** A list of reals that never goes up. *)
Fixpoint non_increasing (l : list R) : Prop :=
  match l with
  | [] => True
  | a :: tl =>
      match tl with
      | [] => True
      | b :: _ => b <= a
      end /\ non_increasing tl
  end.

Definition non_negative (l : list R) : Prop := Forall (fun v => 0 <= v) l.

End Spec.

(* ================================================================== *)
(** ** Auxiliary definitions, used to state the results below *)

Module Aux.

(** The row [FormatBGData] makes for period [t] of [raw]. *)
Definition table_row (raw : list R) (t : nat) : row :=
  mkRow (Fin (nth t raw 0))
        (Fin (-1 * (nth t raw 0 + - nth (t - 1) raw 0)))
        t
        (if Nat.eqb t (length raw - 1) then 1%Z else 0%Z).

(** One row of the base log-likelihood, on the row of period [t]. *)
Definition base_term (gamma delta : R) (raw : list R) (t : nat) : R :=
  -1 * (nth t raw 0 + - nth (t - 1) raw 0) *
    ln (Beta (gamma + 1) (delta + INR t - 1) / Beta gamma delta) +
  IZR (if Nat.eqb t (length raw - 1) then 1 else 0) *
    (nth t raw 0 * ln (Beta gamma (delta + INR t) / Beta gamma delta)).

(** The survival fraction after a cumulative exponent [c]. *)
Definition survival (gamma delta c : R) : R :=
  Beta gamma (delta + c) / Beta gamma delta.

(** A search that stops at once: it returns the start point, the
    objective there, and the flag it is told to report. *)
Definition one_shot (flag : bool) : Py.minimizer DataFrame :=
  fun P f x0 _ Data => Py.mkResult x0 flag (f x0 Data).

End Aux.
Import Aux.

(* ================================================================== *)
(** ** Further auxiliary definitions *)

Module Aux2.

(** A list of reals that goes down at every step. *)
Fixpoint strictly_decreasing (l : list R) : Prop :=
  match l with
  | [] => True
  | a :: tl =>
      match tl with
      | [] => True
      | b :: _ => b < a
      end /\ strictly_decreasing tl
  end.

(** The extended negative log-likelihood as [NLogL_Alpha] computes it:
    the first cumulative exponent is [1 + cumA[t]]. *)
Definition NLL_alpha_code (raw : list R) (gamma delta alpha : R) : R :=
  let T := Spec.final_period raw in
  - (Spec.big_sum
       (fun t => Spec.lost raw t *
                 ln ((Beta gamma (delta + (1 + Spec.cumA alpha t)) -
                      Beta gamma (delta + Spec.cumB alpha t)) /
                     Beta gamma delta))
       (seq 1 T)
     + Spec.remaining raw T *
       ln (Beta gamma (delta + Spec.cumB alpha T) / Beta gamma delta)).

(** One row of the extended log-likelihood as the code computes it, on
    the row of period [t]. *)
Definition alpha_term (gamma delta alpha : R) (raw : list R) (t : nat)
  : R :=
  -1 * (nth t raw 0 + - nth (t - 1) raw 0) *
    ln ((Beta gamma (delta + (1 + Spec.cumA alpha t)) -
         Beta gamma (delta + Spec.cumB alpha t)) / Beta gamma delta) +
  IZR (if Nat.eqb t (length raw - 1) then 1 else 0) *
    (nth t raw 0 *
     ln (Beta gamma (delta + Spec.cumB alpha t) / Beta gamma delta)).

End Aux2.
Import Aux2.

(* ================================================================== *)
(** ** Simple Friend Recommender.ipynb *)

From Stdlib Require Import Permutation Sorted.

Module FR.

(** The two exceptions the notebook's functions can end in: a dictionary
    asked for a key it does not have, and a tuple unpacking that finds
    nothing to unpack. *)
Inductive exn : Type :=
| KeyError (key : Z)
| ValueError.

Inductive result (A : Type) : Type :=
| Returns (a : A)
| Raises (e : exn).
Arguments Returns {A} a.
Arguments Raises {A} e.

Definition bind {A B : Type} (c : result A) (k : A -> result B)
  : result B :=
  match c with
  | Returns a => k a
  | Raises e => Raises e
  end.

(** *** The friend dictionary: user id to list of friends *)

Definition dict : Type := list (Z * list Z).

(** [dict[k]], when [k in dict]. *)
Fixpoint dict_get (d : dict) (k : Z) : option (list Z) :=
  match d with
  | [] => None
  | (k', v) :: d' => if Z.eqb k' k then Some v else dict_get d' k
  end.

(** [k in dict]. *)
Definition dict_contains (d : dict) (k : Z) : bool :=
  match dict_get d k with
  | Some _ => true
  | None => false
  end.

(** [dict[k] = v]. *)
Fixpoint dict_set (d : dict) (k : Z) (v : list Z) : dict :=
  match d with
  | [] => [(k, v)]
  | (k', v') :: d' =>
      if Z.eqb k' k then (k', v) :: d' else (k', v') :: dict_set d' k v
  end.

(** [dict[k].append(x)], for a key the dictionary has. *)
Fixpoint dict_append (d : dict) (k x : Z) : dict :=
  match d with
  | [] => []
  | (k', v') :: d' =>
      if Z.eqb k' k then (k', v' ++ [x]) :: d'
      else (k', v') :: dict_append d' k x
  end.

(** [[
def populate_dict(friend_a,friend_b,dict):
    if not friend_a in dict:
        dict[friend_a] = [friend_b]
    else:
        dict[friend_a].append(friend_b)
    if not friend_b in dict:
        dict[friend_b] = [friend_a]
    else:
        dict[friend_b].append(friend_a)
]]
    The dictionary is updated in place; here the updated dictionary is
    the result. *)
Definition populate_dict (friend_a friend_b : Z) (d : dict) : dict :=
  let d1 :=
    if negb (dict_contains d friend_a)
    then dict_set d friend_a [friend_b]
    else dict_append d friend_a friend_b in
  if negb (dict_contains d1 friend_b)
  then dict_set d1 friend_b [friend_a]
  else dict_append d1 friend_b friend_a.

(** [[
    friend_dict = dict()
    map(lambda x,y: populate_dict(x,y,friend_dict),raw_data.ix[:,0], raw_data.ix[:,1])
]]
    [raw_data] is read as the list of its rows, each a pair of ids. *)
Definition populate (raw_data : list (Z * Z)) : dict :=
  fold_left (fun d xy => populate_dict (fst xy) (snd xy) d) raw_data [].

(** *** Python sets of ids, as duplicate-free lists *)

Definition mem (x : Z) (s : list Z) : bool := existsb (Z.eqb x) s.

(** [set(l)]. *)
Definition set_of (l : list Z) : list Z := nodup Z.eq_dec l.

(** [s - t]. *)
Definition set_diff (s t : list Z) : list Z :=
  filter (fun x => negb (mem x t)) s.

(** [s & t]. *)
Definition set_inter (s t : list Z) : list Z :=
  filter (fun x => mem x t) s.

(** [s.discard(x)]. *)
Definition discard (x : Z) (s : list Z) : list Z :=
  filter (fun y => negb (Z.eqb y x)) s.

(** *** The scored candidates: a DataFrame, row by row *)

Record row : Type := mkRow {
  index : nat;
  candidate_id : Z;
  common_friends : nat;
  number_friends : nat
}.

(** The frame of candidates and their two scores, indexed from [start]. *)
Fixpoint frame (start : nat) (l : list (Z * (nat * nat))) : list row :=
  match l with
  | [] => []
  | (c, (cf, nf)) :: tl => mkRow start c cf nf :: frame (S start) tl
  end.

(** [a] goes before [b] in a descending sort by [common_friends], then
    by [number_friends]. *)
Definition before (a b : row) : bool :=
  Nat.ltb (common_friends b) (common_friends a) ||
  (Nat.eqb (common_friends a) (common_friends b) &&
   Nat.ltb (number_friends b) (number_friends a)).

(** [sort_values(['common_friends', 'number_friends'], ascending = [0,0])]:
    a stable sort, rows with equal scores keep their order. *)
Fixpoint insert (r : row) (l : list row) : list row :=
  match l with
  | [] => [r]
  | h :: t => if before h r then h :: insert r t else r :: h :: t
  end.

Fixpoint sort_values (l : list row) : list row :=
  match l with
  | [] => []
  | r :: t => insert r (sort_values t)
  end.

Section Notebook.

(** [list(s)] lists the elements of a set in an order Python does not
    promise: the order is a parameter. *)
Variable set_order : list Z -> list Z.

(** The loop of [identify_candidates]:
    [[
    for friend in immediate_friends:
        friends_of_friends.extend(friend_dict[friend])
    ]] *)
Fixpoint extend_all (friend_dict : dict) (immediate_friends : list Z)
    (friends_of_friends : list Z) : result (list Z) :=
  match immediate_friends with
  | [] => Returns friends_of_friends
  | friend :: tl =>
      match dict_get friend_dict friend with
      | None => Raises (KeyError friend)
      | Some l => extend_all friend_dict tl (friends_of_friends ++ l)
      end
  end.

(** [[
def identify_candidates(friend_id,friend_dict):
    immediate_friends = friend_dict[friend_id]
    friends_of_friends =[]
    for friend in immediate_friends:
        friends_of_friends.extend(friend_dict[friend])
    friends_of_friends_Set = set(friends_of_friends)
    immediate_friends_Set = set(immediate_friends)
    unconnected_FoF = friends_of_friends_Set - immediate_friends_Set
    unconnected_FoF.discard(friend_id)
    return list(unconnected_FoF)
]] *)
Definition identify_candidates (friend_id : Z) (friend_dict : dict)
  : result (list Z) :=
  match dict_get friend_dict friend_id with
  | None => Raises (KeyError friend_id)
  | Some immediate_friends =>
      bind (extend_all friend_dict immediate_friends [])
           (fun friends_of_friends =>
              let friends_of_friends_Set := set_of friends_of_friends in
              let immediate_friends_Set := set_of immediate_friends in
              let unconnected_FoF :=
                set_diff friends_of_friends_Set immediate_friends_Set in
              Returns (set_order (discard friend_id unconnected_FoF)))
  end.

(** [[
    def pairwise_score(person_b):
        person_b_friends = set(friend_dict[person_b])
        common_friends = len(person_a_friends & person_b_friends)
        person_b_number_friends = len(person_b_friends)
        return common_friends, person_b_number_friends
]] *)
Definition pairwise_score (friend_dict : dict) (person_a_friends : list Z)
    (person_b : Z) : result (nat * nat) :=
  match dict_get friend_dict person_b with
  | None => Raises (KeyError person_b)
  | Some l =>
      let person_b_friends := set_of l in
      Returns (length (set_inter person_a_friends person_b_friends),
               length person_b_friends)
  end.

(** [candidates['candidate_id'].map(pairwise_score)]. *)
Fixpoint map_scores (friend_dict : dict) (person_a_friends : list Z)
    (candidate_list : list Z) : result (list (Z * (nat * nat))) :=
  match candidate_list with
  | [] => Returns []
  | c :: tl =>
      bind (pairwise_score friend_dict person_a_friends c)
           (fun s =>
              bind (map_scores friend_dict person_a_friends tl)
                   (fun rest => Returns ((c, s) :: rest)))
  end.

(** [[
def score_candidates(person_id, candidate_list,friend_dict):
    person_a_friends = set(friend_dict[person_id])
    ...
    candidates = pd.DataFrame(candidate_list, columns={'candidate_id'})
    candidates['common_friends'], candidates['number_friends'] = zip( *candidates['candidate_id'].map(pairwise_score))
    return candidates
]]
    With no candidate [zip( *...)] is empty and the unpacking into the two
    columns raises [ValueError]. *)
Definition score_candidates (person_id : Z) (candidate_list : list Z)
    (friend_dict : dict) : result (list row) :=
  match dict_get friend_dict person_id with
  | None => Raises (KeyError person_id)
  | Some l =>
      let person_a_friends := set_of l in
      bind (map_scores friend_dict person_a_friends candidate_list)
           (fun scores =>
              match scores with
              | [] => Raises ValueError
              | _ => Returns (frame 0 scores)
              end)
  end.

(** [[
def recommend_friend(user_id, recommendations = 5, raw_data=raw_data):
    friend_dict = dict()
    map(lambda x,y: populate_dict(x,y,friend_dict),raw_data.ix[:,0], raw_data.ix[:,1])
    friend_candidates = identify_candidates(user_id,friend_dict)
    scored_candidates = score_candidates(user_id, friend_candidates,friend_dict)
    return scored_candidates.sort_values(['common_friends', 'number_friends'], ascending = [0,0])[:recommendations]
]] *)
Definition recommend_friend (user_id : Z) (recommendations : nat)
    (raw_data : list (Z * Z)) : result (list row) :=
  let friend_dict := populate raw_data in
  bind (identify_candidates user_id friend_dict)
       (fun friend_candidates =>
          bind (score_candidates user_id friend_candidates friend_dict)
               (fun scored_candidates =>
                  Returns (firstn recommendations
                             (sort_values scored_candidates)))).

End Notebook.

(** *** What the pairs of [raw_data] say *)

(** The friends of [a], in the order the pairs name them. *)
Fixpoint partners (raw_data : list (Z * Z)) (a : Z) : list Z :=
  match raw_data with
  | [] => []
  | (x, y) :: tl =>
      (if Z.eqb x a then [y] else []) ++
      (if Z.eqb y a then [x] else []) ++ partners tl a
  end.

(** [a] and [b] are friends: some pair names them, in either order. *)
Definition friends (raw_data : list (Z * Z)) (a b : Z) : Prop :=
  In (a, b) raw_data \/ In (b, a) raw_data.

(** [c] is a friend of a friend of [u], not a friend of [u], and not
    [u]. *)
Definition candidate (raw_data : list (Z * Z)) (u c : Z) : Prop :=
  c <> u /\ ~ friends raw_data u c /\
  exists f, friends raw_data u f /\ friends raw_data f c.

(** The two scores of [c] for [u]: friends in common, and friends of
    [c], each counted once. *)
Definition common_count (raw_data : list (Z * Z)) (u c : Z) : nat :=
  length (set_inter (set_of (partners raw_data u))
                    (set_of (partners raw_data c))).

Definition friend_count (raw_data : list (Z * Z)) (c : Z) : nat :=
  length (set_of (partners raw_data c)).

(** The dictionary [d] holds the friend lists [g]: a key for every id
    with friends, and no other. *)
Definition holds (d : dict) (g : Z -> list Z) : Prop :=
  forall a, dict_get d a = match g a with [] => None | _ => Some (g a) end.

(** The candidates [identify_candidates] returns for a user with
    friends, listed in the order [set_order] gives. *)
Definition candidates_of (set_order : list Z -> list Z)
    (raw_data : list (Z * Z)) (u : Z) : list Z :=
  set_order
    (discard u
       (set_diff (set_of (flat_map (partners raw_data) (partners raw_data u)))
                 (set_of (partners raw_data u)))).

(** The frame [score_candidates] returns for them. *)
Definition scored (set_order : list Z -> list Z)
    (raw_data : list (Z * Z)) (u : Z) : list row :=
  map (fun ic => mkRow (fst ic) (snd ic)
                       (common_count raw_data u (snd ic))
                       (friend_count raw_data (snd ic)))
      (combine (seq 0 (length (candidates_of set_order raw_data u)))
               (candidates_of set_order raw_data u)).

(** A small network: 1 knows 2 and 5, both of whom know 3, who also
    knows 4. *)
Definition sample : list (Z * Z) :=
  [(1, 2); (2, 3); (3, 4); (1, 5); (5, 3)]%Z.

(** [a] is ranked at least as high as [b]. *)
Definition ranks_ge (a b : row) : Prop :=
  (common_friends b < common_friends a)%nat \/
  (common_friends a = common_friends b /\
   (number_friends b <= number_friends a)%nat).

End FR.

(* ================================================================== *)
(** ** Properties of Euler's Beta function *)

Module BetaFacts.

Lemma lim_seq_eq (u : nat -> R) (l : R) : Un_cv u l -> lim_seq u = l.
Proof.
  intros Hl. unfold lim_seq.
  apply (UL_sequence u); [| exact Hl].
  apply (epsilon_spec (inhabits 0) (fun l0 => Un_cv u l0)).
  now exists l.
Qed.

Lemma Un_cv_pointwise (u v : nat -> R) (l : R) :
  (forall n, u n = v n) -> Un_cv u l -> Un_cv v l.
Proof.
  intros E H eps Heps. destruct (H eps Heps) as [N HN].
  exists N. intros n Hn. rewrite <- E. now apply HN.
Qed.

Lemma Un_cv_const (c : R) : Un_cv (fun _ => c) c.
Proof.
  intros eps Heps. exists O. intros n _.
  unfold Rdist. replace (c - c) with 0 by ring. now rewrite Rabs_R0.
Qed.

Lemma INR_S_pos (m : nat) : 0 < INR (S m).
Proof. apply lt_0_INR. lia. Qed.

Lemma div_le_bound (a b c : R) : 0 < c -> a <= b * c -> a / c <= b.
Proof.
  intros Hc H. apply (Rmult_le_reg_r c); [exact Hc|].
  replace (a / c * c) with a by (field; lra). exact H.
Qed.

Lemma le_div_bound (a b c : R) : 0 < c -> a * c <= b -> a <= b / c.
Proof.
  intros Hc H. apply (Rmult_le_reg_r c); [exact Hc|].
  replace (b / c * c) with b by (field; lra). exact H.
Qed.

Section Positive.
Variables x y : R.
Hypothesis Hx : 0 < x.
Hypothesis Hy : 0 < y.

Lemma euler_factor_pos (m : nat) : 0 < euler_factor (S m) x y.
Proof.
  unfold euler_factor. pose proof (INR_S_pos m) as Hk.
  apply Rdiv_lt_0_compat; nra.
Qed.

Lemma euler_factor_le_1 (m : nat) : euler_factor (S m) x y <= 1.
Proof.
  unfold euler_factor. pose proof (INR_S_pos m) as Hk.
  apply div_le_bound; nra.
Qed.

(** Each factor is the inverse of [1 + s] with [s] summable. *)
Lemma euler_factor_inv (m : nat) :
  euler_factor (S m) x y =
  / (1 + x * y / (INR (S m) * (INR (S m) + x + y))).
Proof.
  unfold euler_factor. pose proof (INR_S_pos m) as Hk.
  field. repeat split; nra.
Qed.

Lemma euler_factor_lower (m : nat) :
  exp (- (2 * x * y * (/ INR (S m) - / INR (S (S m))))) <=
  euler_factor (S m) x y.
Proof.
  pose proof (INR_S_pos m) as Hk.
  rewrite euler_factor_inv.
  set (s := x * y / (INR (S m) * (INR (S m) + x + y))).
  assert (Hs : 0 < s) by (unfold s; apply Rdiv_lt_0_compat; nra).
  assert (Hle : s <= 2 * x * y * (/ INR (S m) - / INR (S (S m)))).
  { unfold s. rewrite (S_INR (S m)).
    replace (2 * x * y * (/ INR (S m) - / (INR (S m) + 1)))
      with (2 * x * y / (INR (S m) * (INR (S m) + 1))) by (field; lra).
    assert (H1 : INR (S m) >= 1).
    { rewrite S_INR. pose proof (pos_INR m). lra. }
    apply div_le_bound; [nra|].
    replace (2 * x * y / (INR (S m) * (INR (S m) + 1)) *
             (INR (S m) * (INR (S m) + x + y)))
      with (x * y * (2 * (INR (S m) + x + y) / (INR (S m) + 1)))
      by (field; lra).
    assert (1 <= 2 * (INR (S m) + x + y) / (INR (S m) + 1)).
    { apply le_div_bound; nra. }
    assert (Hxy : 0 < x * y) by nra.
    set (q := 2 * (INR (S m) + x + y) / (INR (S m) + 1)) in *.
    nra. }
  rewrite exp_Ropp.
  apply Rinv_le_contravar; [lra|].
  apply Rle_trans with (exp s); [apply exp_ineq1_le|].
  destruct Hle as [Hlt | Heq].
  - left. now apply exp_increasing.
  - right. now rewrite Heq.
Qed.

Lemma euler_prod_pos (n : nat) : 0 < euler_prod n x y.
Proof.
  induction n as [| n IH]; simpl; [lra|].
  apply Rmult_lt_0_compat; [exact IH | apply euler_factor_pos].
Qed.

Lemma euler_prod_decreasing (n : nat) :
  euler_prod (S n) x y <= euler_prod n x y.
Proof.
  simpl. pose proof (euler_prod_pos n). pose proof (euler_factor_le_1 n).
  pose proof (euler_factor_pos n). nra.
Qed.

Lemma euler_prod_lower (n : nat) :
  exp (- (2 * x * y * (1 - / INR (S n)))) <= euler_prod n x y.
Proof.
  induction n as [| n IH].
  - simpl. replace (- (2 * x * y * (1 - / 1))) with 0 by field.
    rewrite exp_0. lra.
  - cbn [euler_prod].
    replace (- (2 * x * y * (1 - / INR (S (S n)))))
      with (- (2 * x * y * (1 - / INR (S n))) +
            - (2 * x * y * (/ INR (S n) - / INR (S (S n))))) by ring.
    rewrite exp_plus.
    apply Rmult_le_compat; try (left; apply exp_pos);
      [exact IH | apply euler_factor_lower].
Qed.

Lemma euler_prod_lower_bound (n : nat) :
  exp (- (2 * x * y)) <= euler_prod n x y.
Proof.
  apply Rle_trans with (exp (- (2 * x * y * (1 - / INR (S n)))));
    [| apply euler_prod_lower].
  pose proof (INR_S_pos n) as Hk.
  assert (H : 0 < / INR (S n)) by now apply Rinv_0_lt_compat.
  assert (H0 : 0 < x * y * / INR (S n)).
  { apply Rmult_lt_0_compat; [nra | exact H]. }
  left. apply exp_increasing. lra.
Qed.

Lemma Beta_partial_decreasing : Un_decreasing (Beta_partial x y).
Proof.
  intros n. unfold Beta_partial.
  apply Rmult_le_compat_l; [| apply euler_prod_decreasing].
  left. apply Rdiv_lt_0_compat; nra.
Qed.

Lemma Beta_partial_lower (n : nat) :
  (x + y) / (x * y) * exp (- (2 * x * y)) <= Beta_partial x y n.
Proof.
  unfold Beta_partial.
  apply Rmult_le_compat_l; [| apply euler_prod_lower_bound].
  left. apply Rdiv_lt_0_compat; nra.
Qed.

(** The product converges, to [Beta x y]. *)
Lemma Beta_cv : Un_cv (Beta_partial x y) (Beta x y).
Proof.
  assert (Hlb : has_lb (Beta_partial x y)).
  { exists (- ((x + y) / (x * y) * exp (- (2 * x * y)))).
    intros z [n ->]. unfold opp_seq. apply Ropp_le_contravar.
    apply Beta_partial_lower. }
  destruct (decreasing_cv _ Beta_partial_decreasing Hlb) as [l Hl].
  unfold Beta. now rewrite (lim_seq_eq _ _ Hl).
Qed.

Lemma Beta_pos : 0 < Beta x y.
Proof.
  apply Rlt_le_trans with ((x + y) / (x * y) * exp (- (2 * x * y))).
  - apply Rmult_lt_0_compat; [apply Rdiv_lt_0_compat; nra | apply exp_pos].
  - apply (Rle_cv_lim (Un := fun _ => (x + y) / (x * y) * exp (- (2 * x * y)))
                      (Vn := Beta_partial x y)).
    + apply Beta_partial_lower.
    + apply Un_cv_const.
    + apply Beta_cv.
Qed.

End Positive.

(** [y / (n + 1 + x)] vanishes as [n] grows. *)
Lemma cv_inv_shift (x y : R) :
  0 <= x -> 0 < y -> Un_cv (fun n => y / (INR n + 1 + x)) 0.
Proof.
  intros Hx Hy eps Heps.
  destruct (archimed_cor1 (eps / y)) as [N [HN HN0]].
  { apply Rdiv_lt_0_compat; lra. }
  exists N. intros n Hn.
  assert (HNpos : 0 < INR N) by (apply lt_0_INR; lia).
  assert (Hle : INR N <= INR n) by (apply le_INR; lia).
  unfold Rdist. rewrite Rminus_0_r.
  rewrite Rabs_pos_eq; [| left; apply Rdiv_lt_0_compat; lra].
  apply Rle_lt_trans with (y / INR N).
  - apply div_le_bound; [lra|].
    replace (y / INR N * (INR n + 1 + x))
      with (y * ((INR n + 1 + x) / INR N)) by (field; lra).
    assert (1 <= (INR n + 1 + x) / INR N) by (apply le_div_bound; lra).
    nra.
  - apply (Rmult_lt_reg_r (/ y)); [now apply Rinv_0_lt_compat|].
    replace (y / INR N * / y) with (/ INR N) by (field; lra).
    exact HN.
Qed.

Lemma euler_factor_sym (k : nat) (x y : R) :
  euler_factor k x y = euler_factor k y x.
Proof.
  unfold euler_factor.
  replace (INR k + y + x) with (INR k + x + y) by ring.
  replace ((INR k + y) * (INR k + x)) with ((INR k + x) * (INR k + y))
    by ring.
  reflexivity.
Qed.

Lemma euler_prod_sym (n : nat) (x y : R) :
  euler_prod n x y = euler_prod n y x.
Proof.
  induction n as [| n IH]; simpl; [reflexivity|].
  now rewrite IH, euler_factor_sym.
Qed.

Lemma Beta_partial_sym (x y : R) (n : nat) :
  Beta_partial x y n = Beta_partial y x n.
Proof.
  unfold Beta_partial. rewrite euler_prod_sym.
  replace (y + x) with (x + y) by ring.
  replace (y * x) with (x * y) by ring.
  reflexivity.
Qed.

Lemma Beta_sym (x y : R) : 0 < x -> 0 < y -> Beta x y = Beta y x.
Proof.
  intros Hx Hy.
  apply (UL_sequence (Beta_partial x y)); [now apply Beta_cv|].
  apply (Un_cv_pointwise (Beta_partial y x)); [| now apply Beta_cv].
  intros n. apply Beta_partial_sym.
Qed.

(** The partial products at [x + 1] against those at [x]. *)
Lemma Beta_partial_succ (x y : R) (n : nat) :
  0 < x -> 0 < y ->
  Beta_partial (x + 1) y n =
  Beta_partial x y n * (x / (x + y) * (1 + y / (INR n + 1 + x))).
Proof.
  intros Hx Hy. unfold Beta_partial.
  induction n as [| n IH].
  - simpl. field. repeat split; lra.
  - cbn [euler_prod].
    replace ((x + 1 + y) / ((x + 1) * y) *
             (euler_prod n (x + 1) y * euler_factor (S n) (x + 1) y))
      with ((x + 1 + y) / ((x + 1) * y) * euler_prod n (x + 1) y *
            euler_factor (S n) (x + 1) y) by ring.
    rewrite IH. unfold euler_factor.
    rewrite (S_INR n). pose proof (pos_INR n) as Hn.
    field. repeat split; lra.
Qed.

(** [B(x+1, y) = x / (x+y) * B(x, y)]. *)
Lemma Beta_succ_l (x y : R) :
  0 < x -> 0 < y -> Beta (x + 1) y = x / (x + y) * Beta x y.
Proof.
  intros Hx Hy.
  apply (UL_sequence (Beta_partial (x + 1) y)).
  - apply Beta_cv; lra.
  - apply (Un_cv_pointwise
             (fun n => Beta_partial x y n *
                       (x / (x + y) * (1 + y / (INR n + 1 + x))))).
    + intros n. symmetry. now apply Beta_partial_succ.
    + replace (x / (x + y) * Beta x y)
        with (Beta x y * (x / (x + y) * (1 + 0))) by ring.
      apply CV_mult; [now apply Beta_cv|].
      apply (CV_mult (fun _ => x / (x + y))); [apply Un_cv_const|].
      apply (CV_plus (fun _ => 1)); [apply Un_cv_const|].
      apply cv_inv_shift; lra.
Qed.

Lemma Beta_succ_r (x y : R) :
  0 < x -> 0 < y -> Beta x (y + 1) = y / (x + y) * Beta x y.
Proof.
  intros Hx Hy.
  rewrite (Beta_sym x (y + 1)), (Beta_sym x y) by lra.
  rewrite Beta_succ_l by lra.
  now replace (y + x) with (x + y) by ring.
Qed.

(** The additive identity of the Beta function. *)
Lemma Beta_add (x y : R) :
  0 < x -> 0 < y -> Beta x y = Beta (x + 1) y + Beta x (y + 1).
Proof.
  intros Hx Hy. rewrite Beta_succ_l, Beta_succ_r by lra.
  field. lra.
Qed.

(** The Beta function decreases in its second argument. *)
Lemma euler_factor_antitone (m : nat) (x y y' : R) :
  0 < x -> 0 < y -> y <= y' ->
  euler_factor (S m) x y' <= euler_factor (S m) x y.
Proof.
  intros Hx Hy Hyy'. unfold euler_factor. pose proof (INR_S_pos m) as Hk.
  set (k := INR (S m)) in *.
  apply div_le_bound; [nra|].
  replace (k * (k + x + y) / ((k + x) * (k + y)) * ((k + x) * (k + y')))
    with (k * ((k + x + y) * (k + y') / (k + y))) by (field; lra).
  apply Rmult_le_compat_l; [lra|].
  apply le_div_bound; nra.
Qed.

Lemma euler_prod_antitone (n : nat) (x y y' : R) :
  0 < x -> 0 < y -> y <= y' ->
  euler_prod n x y' <= euler_prod n x y.
Proof.
  intros Hx Hy Hyy'. induction n as [| n IH]; simpl; [lra|].
  apply Rmult_le_compat.
  - left. apply euler_prod_pos; lra.
  - left. apply euler_factor_pos; lra.
  - exact IH.
  - now apply euler_factor_antitone.
Qed.

Lemma Beta_partial_antitone (n : nat) (x y y' : R) :
  0 < x -> 0 < y -> y <= y' ->
  Beta_partial x y' n <= Beta_partial x y n.
Proof.
  intros Hx Hy Hyy'. unfold Beta_partial.
  apply Rmult_le_compat.
  - left. apply Rdiv_lt_0_compat; nra.
  - left. apply euler_prod_pos; lra.
  - apply div_le_bound; [nra|].
    replace ((x + y) / (x * y) * (x * y')) with ((x + y) * y' / y)
      by (field; lra).
    apply le_div_bound; nra.
  - now apply euler_prod_antitone.
Qed.

Lemma Beta_antitone (x y y' : R) :
  0 < x -> 0 < y -> y <= y' -> Beta x y' <= Beta x y.
Proof.
  intros Hx Hy Hyy'.
  apply (Rle_cv_lim (Un := Beta_partial x y') (Vn := Beta_partial x y)).
  - intros n. now apply Beta_partial_antitone.
  - apply Beta_cv; lra.
  - now apply Beta_cv.
Qed.

(** Values to check the definition against: [B(x,1) = 1/x] and
    [B(1,1) = 1]. *)
Lemma Beta_partial_x_1 (x : R) (n : nat) :
  0 < x -> Beta_partial x 1 n = / x * (1 + x / (INR n + 1 + 0)).
Proof.
  intros Hx. unfold Beta_partial.
  assert (E : euler_prod n x 1 = (INR n + x + 1) / ((x + 1) * (INR n + 1))).
  { induction n as [| n IH].
    - simpl. field. lra.
    - cbn [euler_prod]. rewrite IH. unfold euler_factor.
      rewrite (S_INR n). pose proof (pos_INR n). field. repeat split; lra. }
  rewrite E. pose proof (pos_INR n). field. repeat split; lra.
Qed.

Lemma Beta_x_1 (x : R) : 0 < x -> Beta x 1 = / x.
Proof.
  intros Hx. unfold Beta. apply lim_seq_eq.
  apply (Un_cv_pointwise (fun n => / x * (1 + x / (INR n + 1 + 0)))).
  - intros n. symmetry. now apply Beta_partial_x_1.
  - replace (/ x) with (/ x * (1 + 0)) at 1 by ring.
    apply (CV_mult (fun _ => / x)); [apply Un_cv_const|].
    apply (CV_plus (fun _ => 1)); [apply Un_cv_const|].
    apply cv_inv_shift; lra.
Qed.

Lemma Beta_partial_1_1 (n : nat) :
  Beta_partial 1 1 n = 1 + 1 / (INR n + 1 + 0).
Proof.
  unfold Beta_partial.
  assert (E : euler_prod n 1 1 = (INR n + 2) / (2 * (INR n + 1))).
  { induction n as [| n IH].
    - simpl. field.
    - cbn [euler_prod]. rewrite IH. unfold euler_factor.
      rewrite (S_INR n). pose proof (pos_INR n). field. repeat split; lra. }
  rewrite E. pose proof (pos_INR n). field. repeat split; lra.
Qed.

Lemma Beta_1_1 : Beta 1 1 = 1.
Proof.
  unfold Beta. apply lim_seq_eq.
  apply (Un_cv_pointwise (fun n => 1 + 1 / (INR n + 1 + 0))).
  - intros n. symmetry. apply Beta_partial_1_1.
  - replace 1 with (1 + 0) at 1 by ring.
    apply (CV_plus (fun _ => 1)); [apply Un_cv_const|].
    apply cv_inv_shift; lra.
Qed.

End BetaFacts.

(* ================================================================== *)
(** ** Facts about the numpy operations *)

Module NumPyFacts.

Lemma sum_from_Fin (f : nat -> R) (l : list nat) (a : R) :
  fold_left fadd (map (fun t => Fin (f t)) l) (Fin a) =
  Fin (a + Spec.big_sum f l).
Proof.
  revert a. induction l as [| t l IH]; intros a; simpl.
  - f_equal. ring.
  - rewrite IH. f_equal. ring.
Qed.

Lemma sum_Fin (f : nat -> R) (l : list nat) :
  NumPy.sum (map (fun t => Fin (f t)) l) = Fin (Spec.big_sum f l).
Proof.
  unfold NumPy.sum. rewrite sum_from_Fin. f_equal. ring.
Qed.

Lemma sum_from_NaN (l : list npfloat) : fold_left fadd l NaN = NaN.
Proof. induction l as [| v l IH]; simpl; [reflexivity | exact IH]. Qed.

Lemma fadd_NaN_r (a : npfloat) : fadd a NaN = NaN.
Proof. now destruct a. Qed.

Lemma fmul_NaN_r (a : npfloat) : fmul a NaN = NaN.
Proof. now destruct a. Qed.

Lemma fdiv_NaN_r (a : npfloat) : fdiv a NaN = NaN.
Proof. now destruct a. Qed.

Lemma log_Fin_pos (v : R) : 0 < v -> log (Fin v) = Fin (ln v).
Proof. intros H. unfold log. destruct (Rlt_dec 0 v); [reflexivity | lra]. Qed.

Lemma log_Fin_0 : log (Fin 0) = NInf.
Proof.
  unfold log. destruct (Rlt_dec 0 0); [lra|].
  destruct (Req_dec_T 0 0); [reflexivity | lra].
Qed.

Lemma fdiv_Fin (a b : R) : b <> 0 -> fdiv (Fin a) (Fin b) = Fin (a / b).
Proof.
  intros H. unfold fdiv. destruct (Req_dec_T b 0); [contradiction | reflexivity].
Qed.

Lemma signed_inf_pos (r : R) (pos : bool) :
  0 < r -> signed_inf r pos = if pos then PInf else NInf.
Proof.
  intros H. unfold signed_inf.
  destruct (Req_dec_T r 0); [lra|]. destruct (Rlt_dec 0 r); [reflexivity | lra].
Qed.

Lemma signed_inf_not_finite (r : R) (pos : bool) :
  ~ is_finite (signed_inf r pos).
Proof.
  unfold signed_inf.
  destruct (Req_dec_T r 0); [easy|].
  destruct (Rlt_dec 0 r); destruct pos; easy.
Qed.

Lemma fadd_not_finite_l (a b : npfloat) :
  ~ is_finite a -> ~ is_finite (fadd a b).
Proof. destruct a, b; simpl; tauto. Qed.

Lemma fadd_not_finite_r (a b : npfloat) :
  ~ is_finite b -> ~ is_finite (fadd a b).
Proof. destruct a, b; simpl; tauto. Qed.

Lemma fneg_not_finite (a : npfloat) : ~ is_finite a -> ~ is_finite (fneg a).
Proof. destruct a; simpl; tauto. Qed.

Lemma sum_from_not_finite (l : list npfloat) (a : npfloat) :
  ~ is_finite a -> ~ is_finite (fold_left fadd l a).
Proof.
  revert a. induction l as [| v l IH]; intros a Ha; simpl; [exact Ha|].
  apply IH. now apply fadd_not_finite_l.
Qed.

(** A sum with at least one term, all of whose terms are infinite or
    [nan], is infinite or [nan]. *)
Lemma sum_not_finite (l : list npfloat) :
  l <> [] -> Forall (fun v => ~ is_finite v) l -> ~ is_finite (NumPy.sum l).
Proof.
  intros Hne Hall. destruct l as [| v l]; [contradiction|].
  unfold NumPy.sum. cbn [fold_left]. apply sum_from_not_finite.
  apply fadd_not_finite_r. now inversion Hall.
Qed.

(** The special values behave as numpy's do. *)
Example log_of_negative : log (Fin (-1)) = NaN.
Proof.
  unfold log. destruct (Rlt_dec 0 (-1)); [lra|].
  destruct (Req_dec_T (-1) 0); [lra | reflexivity].
Qed.

Example zero_times_inf : fmul (Fin 0) NInf = NaN.
Proof.
  cbn. unfold signed_inf. destruct (Req_dec_T 0 0); [reflexivity | lra].
Qed.

Example inf_minus_inf : fsub PInf PInf = NaN.
Proof. reflexivity. Qed.

Example cumsum_skips_nan :
  pd_cumsum [Fin 1; NaN; Fin 2] = [Fin (0 + 1); NaN; Fin (0 + 1 + 2)].
Proof. reflexivity. Qed.

Lemma cumsum_from_length (l : list R) (a : R) :
  length (cumsum_from a l) = length l.
Proof.
  revert a. induction l as [| v l IH]; intros a; simpl; [reflexivity|].
  now rewrite IH.
Qed.

End NumPyFacts.
Import NumPyFacts.

(** ** [special.beta] on the positive quadrant *)

Module SciPyFacts.
Import BetaFacts.

Lemma special_beta_pos (ext : R -> R -> npfloat) (a b : R) :
  0 < a -> 0 < b -> SciPy.special_beta ext a b = Fin (Beta a b).
Proof.
  intros Ha Hb. unfold SciPy.special_beta.
  destruct (Rlt_dec 0 a); [| lra]. destruct (Rlt_dec 0 b); [reflexivity | lra].
Qed.

Lemma special_beta_ext_l (ext : R -> R -> npfloat) (a b : R) :
  a <= 0 -> SciPy.special_beta ext a b = ext a b.
Proof.
  intros Ha. unfold SciPy.special_beta.
  destruct (Rlt_dec 0 a); [lra | reflexivity].
Qed.

Lemma special_beta_ext_r (ext : R -> R -> npfloat) (a b : R) :
  b <= 0 -> SciPy.special_beta ext a b = ext a b.
Proof.
  intros Hb. unfold SciPy.special_beta.
  destruct (Rlt_dec 0 a); [| reflexivity].
  destruct (Rlt_dec 0 b); [lra | reflexivity].
Qed.

(** The logarithm of a ratio of two Beta values, as the notebooks
    compute it. *)
Lemma log_ratio (ext : R -> R -> npfloat) (a b c d : R) :
  0 < a -> 0 < b -> 0 < c -> 0 < d ->
  log (fdiv (SciPy.special_beta ext a b) (SciPy.special_beta ext c d)) =
  Fin (ln (Beta a b / Beta c d)).
Proof.
  intros Ha Hb Hc Hd. rewrite !special_beta_pos by assumption.
  pose proof (Beta_pos a b Ha Hb). pose proof (Beta_pos c d Hc Hd).
  rewrite fdiv_Fin by lra. apply log_Fin_pos.
  apply Rdiv_lt_0_compat; assumption.
Qed.

End SciPyFacts.
Import SciPyFacts.

(* ================================================================== *)
(** ** The table [FormatBGData] builds *)

Module TableFacts.

Lemma frame_rows (n : nat) (pre l : list R) (prev : R) :
  frame (map Fin l)
        (map (fmul (Fin (-1))) (fillna 0 (diff_from (Fin prev) (map Fin l))))
        (seq (S (length pre)) (length l))
        (map (fun p => if Nat.eqb p n then 1%Z else 0%Z)
             (seq (S (length pre)) (length l))) =
  map (fun t =>
         mkRow (Fin (nth t (pre ++ prev :: l) 0))
               (Fin (-1 * (nth t (pre ++ prev :: l) 0 +
                           - nth (t - 1) (pre ++ prev :: l) 0)))
               t (if Nat.eqb t n then 1%Z else 0%Z))
      (seq (S (length pre)) (length l)).
Proof.
  revert pre prev. induction l as [| v l IH]; intros pre prev.
  - reflexivity.
  - cbn [map diff_from fillna length seq frame fsub fneg fadd fmul].
    f_equal.
    + assert (E1 : nth (S (length pre)) (pre ++ prev :: v :: l) 0 = v).
      { rewrite app_nth2 by lia.
        replace (S (length pre) - length pre)%nat with 1%nat by lia.
        reflexivity. }
      assert (E2 : nth (S (length pre) - 1) (pre ++ prev :: v :: l) 0 = prev).
      { rewrite app_nth2 by lia.
        replace (S (length pre) - 1 - length pre)%nat with 0%nat by lia.
        reflexivity. }
      rewrite E1, E2. reflexivity.
    + specialize (IH (pre ++ [prev]) v).
      rewrite length_app in IH. simpl in IH.
      replace (length pre + 1)%nat with (S (length pre)) in IH by lia.
      rewrite <- app_assoc in IH. simpl in IH.
      exact IH.
Qed.

Lemma filter_period_pos (f : nat -> row) (p k : nat) :
  (forall t, Period (f t) = t) ->
  filter (fun r => negb (Nat.eqb (Period r) 0)) (map f (seq (S p) k)) =
  map f (seq (S p) k).
Proof.
  intros Hf. revert p. induction k as [| k IH]; intros p; simpl.
  - reflexivity.
  - rewrite Hf. simpl. f_equal. apply IH.
Qed.

(** [FormatBGData] on a non-empty sequence: it returns, and the frame has
    one row per period [1 .. n-1]. *)
Lemma FormatBGData_rows (r0 : R) (rest : list R) :
  BG.FormatBGData (r0 :: rest) =
  Py.Returns (map (table_row (r0 :: rest)) (seq 1 (length rest))).
Proof.
  unfold BG.FormatBGData, arange.
  cbn [map diff length seq fillna frame filter Period Nat.eqb negb].
  replace (S (length rest) - 0)%nat with (S (length rest)) by lia.
  cbn [seq map frame filter Period Nat.eqb negb].
  f_equal.
  pose proof (frame_rows (S (length rest) - 1) [] rest r0) as H.
  cbn [length app] in H. unfold fillna in H. rewrite H.
  apply (filter_period_pos
           (fun t => mkRow (Fin (nth t (r0 :: rest) 0))
                           (Fin (-1 * (nth t (r0 :: rest) 0 +
                                       - nth (t - 1) (r0 :: rest) 0)))
                           t (if Nat.eqb t (S (length rest) - 1)
                              then 1%Z else 0%Z))).
  reflexivity.
Qed.

End TableFacts.
Import TableFacts.

(* ================================================================== *)
(** ** Construction of the survival table *)

Module TableTheorems.

Lemma non_increasing_step (raw : list R) (i : nat) :
  Spec.non_increasing raw -> (S i < length raw)%nat ->
  nth (S i) raw 0 <= nth i raw 0.
Proof.
  revert i. induction raw as [| a raw IH]; intros i Hs Hi; simpl in Hi; [lia|].
  destruct Hs as [Hhd Htl].
  destruct i as [| i].
  - destruct raw as [| b raw]; simpl in *; [lia | exact Hhd].
  - change (nth (S i) raw 0 <= nth i raw 0). apply IH; [exact Htl | lia].
Qed.

Lemma non_increasing_from_start (raw : list R) (t : nat) :
  Spec.non_increasing raw -> (t < length raw)%nat ->
  nth t raw 0 <= nth 0 raw 0.
Proof.
  intros Hs. induction t as [| t IH]; intros Ht; [lra|].
  apply Rle_trans with (nth t raw 0); [| apply IH; lia].
  now apply non_increasing_step.
Qed.

(** C8.  From the raw input [1000, 800, 275, 250, 220] both notebooks'
    [FormatBGData] return the table of periods 1..4 with
    [remaining = 800, 275, 250, 220], [lost = 200, 525, 25, 30], the final
    flag on period 4 only, and the script's [Initial_Pop] is [1000]. *)
Theorem concrete_scenario_table :
  exists Data : DataFrame,
    BG.FormatBGData LN.RawData = Py.Returns Data /\
    LN.FormatBGData LN.RawData = Py.Returns Data /\
    map Period Data = [1; 2; 3; 4]%nat /\
    map Remaining Data = [Fin 800; Fin 275; Fin 250; Fin 220] /\
    map Cust_Lost Data = [Fin 200; Fin 525; Fin 25; Fin 30] /\
    map Final_Period Data = [0; 0; 0; 1]%Z /\
    map is_final_period Data = [false; false; false; true] /\
    BG.Initial_Pop Data = Py.Returns (Fin 1000) /\
    LN.Initial_Pop Data = Py.Returns (Fin 1000).
Proof.
  unfold LN.FormatBGData, LN.RawData. rewrite FormatBGData_rows.
  eexists. split; [reflexivity|]. split; [reflexivity|].
  cbn. repeat split; repeat f_equal; lra.
Qed.

(** C7, as the claim states it, fails: a sequence with a negative value
    and a sequence of one element are both accepted. *)
Lemma construction_accepts_invalid_input :
  (exists Data : DataFrame,
      BG.FormatBGData [1000; -5] = Py.Returns Data /\
      map Period Data = [1%nat] /\
      map Remaining Data = [Fin (-5)] /\
      map Cust_Lost Data = [Fin 1005]) /\
  BG.FormatBGData [1000; -5] <> Py.Raises Py.InvalidInputError /\
  BG.FormatBGData [1000] = Py.Returns [] /\
  BG.FormatBGData [1000] <> Py.Raises Py.InvalidInputError.
Proof.
  rewrite !FormatBGData_rows. repeat split; try discriminate.
  eexists. split; [reflexivity|].
  cbn. repeat split; repeat f_equal; lra.
Qed.

(** C7, amended.  [FormatBGData] validates nothing and raises nothing: on
    every non-empty sequence [raw] it returns the table of periods
    [1 .. n-1] with [remaining[t] = raw[t]],
    [lost[t] = raw[t-1] - raw[t]] and the final flag on period [n-1] only;
    when [raw] never goes up the losses are non-negative, and when it is
    also non-negative every [remaining[t]] lies between [0] and the
    initial population. *)
Theorem construction_never_fails (r0 : R) (rest : list R) :
  exists Data : DataFrame,
    BG.FormatBGData (r0 :: rest) = Py.Returns Data /\
    LN.FormatBGData (r0 :: rest) = Py.Returns Data /\
    map Period Data = seq 1 (Spec.final_period (r0 :: rest)) /\
    map Remaining Data =
      map (fun t => Fin (Spec.remaining (r0 :: rest) t))
          (seq 1 (Spec.final_period (r0 :: rest))) /\
    map Cust_Lost Data =
      map (fun t => Fin (Spec.lost (r0 :: rest) t))
          (seq 1 (Spec.final_period (r0 :: rest))) /\
    map is_final_period Data =
      map (fun t => Nat.eqb t (Spec.final_period (r0 :: rest)))
          (seq 1 (Spec.final_period (r0 :: rest))) /\
    (Spec.non_increasing (r0 :: rest) ->
     forall t, (1 <= t <= Spec.final_period (r0 :: rest))%nat ->
               0 <= Spec.lost (r0 :: rest) t) /\
    (Spec.non_increasing (r0 :: rest) -> Spec.non_negative (r0 :: rest) ->
     forall t, (1 <= t <= Spec.final_period (r0 :: rest))%nat ->
               0 <= Spec.remaining (r0 :: rest) t <=
               Spec.initial_population (r0 :: rest)).
Proof.
  unfold LN.FormatBGData. rewrite FormatBGData_rows.
  unfold Spec.final_period. cbn [length].
  replace (S (length rest) - 1)%nat with (length rest) by lia.
  eexists. split; [reflexivity|]. split; [reflexivity|].
  rewrite !map_map. repeat split.
  - cbn [table_row Period]. now rewrite map_id.
  - apply map_ext. intros t. cbn [table_row Cust_Lost].
    unfold Spec.lost, Spec.remaining. f_equal. ring.
  - apply map_ext. intros t. unfold is_final_period.
    cbn [table_row Final_Period length].
    replace (S (length rest) - 1)%nat with (length rest) by lia.
    now destruct (Nat.eqb t (length rest)).
  - intros Hs t Ht. unfold Spec.lost, Spec.remaining.
    destruct t as [| t]; [lia|].
    replace (S t - 1)%nat with t by lia.
    pose proof (non_increasing_step (r0 :: rest) t Hs) as H.
    cbn [length] in H. assert (S t < S (length rest))%nat by lia.
    specialize (H H0). lra.
  - unfold Spec.non_negative in H0. rewrite Forall_forall in H0.
    apply H0. apply nth_In. cbn [length]. lia.
  - unfold Spec.initial_population, Spec.remaining.
    apply non_increasing_from_start; [assumption|]. cbn [length]. lia.
Qed.

End TableTheorems.

(* ================================================================== *)
(** ** The likelihood functions *)

Module LikelihoodFacts.
Import BetaFacts.

Lemma big_sum_ext_in (f g : nat -> R) (l : list nat) :
  (forall t, In t l -> f t = g t) -> Spec.big_sum f l = Spec.big_sum g l.
Proof.
  induction l as [| t l IH]; intros H; simpl; [reflexivity|].
  rewrite IH, (H t); [reflexivity | now left |].
  intros u Hu. apply H. now right.
Qed.

Lemma big_sum_plus (f g : nat -> R) (l : list nat) :
  Spec.big_sum (fun t => f t + g t) l = Spec.big_sum f l + Spec.big_sum g l.
Proof. induction l as [| t l IH]; simpl; [ring | rewrite IH; ring]. Qed.

(** Only the final period contributes its censored term. *)
Lemma big_sum_final (b : nat -> R) (p k : nat) :
  Spec.big_sum
    (fun t => IZR (if Nat.eqb t (p + k) then 1 else 0) * b t)
    (seq p (S k)) = b (p + k)%nat.
Proof.
  revert p. induction k as [| k IH]; intros p.
  - simpl. rewrite Nat.add_0_r, Nat.eqb_refl. ring.
  - change (seq p (S (S k))) with (p :: seq (S p) (S k)).
    cbn [Spec.big_sum fold_right].
    replace (p + S k)%nat with (S p + k)%nat by lia.
    change (fold_right
              (fun t acc =>
                 IZR (if Nat.eqb t (S p + k) then 1 else 0) * b t + acc)
              0 (seq (S p) (S k)))
      with (Spec.big_sum
              (fun t => IZR (if Nat.eqb t (S p + k) then 1 else 0) * b t)
              (seq (S p) (S k))).
    rewrite IH.
    destruct (Nat.eqb_spec p (S p + k)); [lia | ring].
Qed.

Lemma big_sum_shift (g : nat -> R) (p k : nat) :
  Spec.big_sum (fun i => g (i - 1)%nat) (seq (S p) k) =
  Spec.big_sum g (seq p k).
Proof.
  revert p. induction k as [| k IH]; intros p; simpl; [reflexivity|].
  rewrite Nat.sub_0_r. f_equal. apply IH.
Qed.

Lemma INR_ge_1 (t : nat) : (1 <= t)%nat -> 1 <= INR t.
Proof. intros H. apply (le_INR 1 t H). Qed.

Section Rows.
Variable ext : R -> R -> npfloat.
Variables gamma delta : R.
Hypothesis Hgamma : 0 < gamma.
Hypothesis Hdelta : 0 < delta.

Local Abbreviation base_term := (Aux.base_term gamma delta).

Lemma BG_LogLikelihood_row (raw : list R) (t : nat) :
  (1 <= t)%nat ->
  BG.LogLikelihood ext gamma delta (table_row raw t) =
  Fin (base_term raw t).
Proof.
  intros Ht. pose proof (INR_ge_1 t Ht) as H1.
  unfold BG.LogLikelihood, Aux.base_term.
  cbn [table_row Cust_Lost Remaining Period Final_Period].
  rewrite !log_ratio by lra. reflexivity.
Qed.

Lemma LN_LogLikelihood_row (raw : list R) (t : nat) :
  (1 <= t)%nat ->
  LN.LogLikelihood ext gamma delta (table_row raw t) =
  Fin (base_term raw t).
Proof. apply BG_LogLikelihood_row. Qed.

Lemma base_sum (r0 : R) (rest : list R) :
  rest <> [] ->
  - Spec.big_sum (base_term (r0 :: rest)) (seq 1 (length rest)) =
  Spec.NLL_base (r0 :: rest) gamma delta.
Proof.
  intros Hne. unfold Spec.NLL_base, Spec.final_period. cbn [length].
  replace (S (length rest) - 1)%nat with (length rest) by lia.
  destruct (length rest) as [| k] eqn:Hlen.
  { destruct rest; [contradiction | discriminate]. }
  f_equal. unfold Aux.base_term. cbn [length]. rewrite Hlen.
  replace (S (S k) - 1)%nat with (1 + k)%nat by lia.
  rewrite big_sum_plus.
  rewrite (big_sum_final
             (fun t => nth t (r0 :: rest) 0 *
                       ln (Beta gamma (delta + INR t) / Beta gamma delta))
             1 k).
  unfold Spec.remaining. f_equal.
  apply big_sum_ext_in. intros t _. unfold Spec.lost, Spec.remaining. ring.
Qed.

(** The base likelihood of both notebooks on the table of a raw
    sequence. *)
Lemma NLogL_table (r0 : R) (rest : list R) :
  rest <> [] ->
  BG.NLogL ext (gamma, delta)
           (map (table_row (r0 :: rest)) (seq 1 (length rest))) =
    Fin (Spec.NLL_base (r0 :: rest) gamma delta) /\
  LN.NLogL ext (gamma, delta)
           (map (table_row (r0 :: rest)) (seq 1 (length rest))) =
    Fin (Spec.NLL_base (r0 :: rest) gamma delta).
Proof.
  intros Hne. unfold BG.NLogL, LN.NLogL. rewrite !map_map.
  rewrite (map_ext_in _ (fun t => Fin (base_term (r0 :: rest) t))).
  2:{ intros t Ht. apply in_seq in Ht. apply BG_LogLikelihood_row; lia. }
  rewrite (map_ext_in (fun t => LN.LogLikelihood _ _ _ _)
                      (fun t => Fin (base_term (r0 :: rest) t))).
  2:{ intros t Ht. apply in_seq in Ht. apply LN_LogLikelihood_row; lia. }
  rewrite sum_Fin. cbn [fneg]. rewrite base_sum by assumption.
  split; reflexivity.
Qed.

End Rows.

End LikelihoodFacts.
Import LikelihoodFacts.

Module LikelihoodTheorems.
Import BetaFacts.



End LikelihoodTheorems.

(* ================================================================== *)
(** ** The extended likelihood at [alpha = 0] *)

Module ExtendedFacts.
Import BetaFacts.

Lemma cumsum_from_ge (l : list R) (acc : R) :
  Forall (fun v => 0 <= v) l ->
  Forall (fun c => acc <= c) (cumsum_from acc l).
Proof.
  revert acc. induction l as [| v l IH]; intros acc Hl; simpl.
  - constructor.
  - inversion Hl as [| v' l' Hv Hl']; subst. constructor; [lra|].
    apply Forall_impl with (P := fun c => acc + v <= c);
      [intros c Hc; lra | now apply IH].
Qed.

Lemma clipped_terms_nonneg {A : Type} (h : A -> R) (l : list A) :
  Forall (fun v => 0 <= v) (map (fun a => maximum 0 (h a)) l).
Proof.
  apply Forall_forall. intros v Hv. apply in_map_iff in Hv.
  destruct Hv as [a [<- _]]. unfold maximum. apply Rmax_l.
Qed.

Lemma DeltaUpd2_ge (Delta Alpha : R) (Data : DataFrame) :
  Forall (fun d => Delta <= d) (LN.DeltaUpd2 Delta Alpha Data).
Proof.
  unfold LN.DeltaUpd2, cumsum. apply Forall_forall. intros d Hd.
  apply in_map_iff in Hd. destruct Hd as [c [<- Hc]].
  pose proof (cumsum_from_ge _ 0 (clipped_terms_nonneg
                (fun r => 1 + Alpha * INR (Period r)) Data)) as H.
  rewrite Forall_forall in H. specialize (H c Hc). lra.
Qed.

Lemma DeltaUpd_length (Delta Alpha : R) (Data : DataFrame) :
  length (LN.DeltaUpd1 Delta Alpha Data) = length Data /\
  length (LN.DeltaUpd2 Delta Alpha Data) = length Data.
Proof.
  unfold LN.DeltaUpd1, LN.DeltaUpd2, cumsum.
  now rewrite !length_map, !cumsum_from_length, !length_map.
Qed.

(** With [alpha = 0] the two updated deltas are the same Series. *)
Lemma DeltaUpd_alpha_0 (Delta : R) (Data : DataFrame) :
  LN.DeltaUpd1 Delta 0 Data = LN.DeltaUpd2 Delta 0 Data.
Proof.
  unfold LN.DeltaUpd1, LN.DeltaUpd2. do 2 f_equal.
  apply map_ext. intros r. f_equal. ring.
Qed.

Lemma zip_length (Data : DataFrame) (d1 d2 : list R) :
  length d1 = length Data -> length d2 = length Data ->
  length (LN.zip Data d1 d2) = length Data.
Proof.
  revert d1 d2. induction Data as [| r Data IH]; intros d1 d2 H1 H2.
  - reflexivity.
  - destruct d1 as [| a d1]; [discriminate|].
    destruct d2 as [| b d2]; [discriminate|].
    simpl. f_equal. apply IH; simpl in *; lia.
Qed.

(** The rows [NLogL_Alpha] sums over: as many as the frame has. *)
Lemma zip_DeltaUpd_nonempty {B : Type} (f : row * R * R -> B)
    (Delta Alpha : R) (Data : DataFrame) :
  Data <> [] ->
  map f (LN.zip Data (LN.DeltaUpd1 Delta Alpha Data)
                     (LN.DeltaUpd2 Delta Alpha Data)) <> [].
Proof.
  intros Hne E. apply map_eq_nil in E.
  apply (f_equal (@length _)) in E.
  rewrite zip_length in E by apply DeltaUpd_length.
  destruct Data; [contradiction | discriminate].
Qed.

Lemma zip_same_Forall (P : row * R * R -> Prop) (Q : R -> Prop) :
  (forall r d, Q d -> P (r, d, d)) ->
  forall (Data : DataFrame) (ds : list R),
    Forall Q ds -> Forall P (LN.zip Data ds ds).
Proof.
  intros HPQ Data. induction Data as [| r Data IH]; intros ds Hds.
  - constructor.
  - destruct ds as [| d ds]; [constructor|].
    inversion Hds; subst. simpl. constructor; [now apply HPQ | now apply IH].
Qed.

Lemma log_Fin_zero (v : R) : v = 0 -> log (Fin v) = NInf.
Proof. intros ->. apply log_Fin_0. Qed.

Lemma fmul_NInf_not_finite (a : npfloat) : ~ is_finite (fmul a NInf).
Proof.
  destruct a; simpl; try tauto. apply signed_inf_not_finite.
Qed.

Section Alpha0.
Variable ext : R -> R -> npfloat.
Variables gamma delta : R.
Hypothesis Hgamma : 0 < gamma.
Hypothesis Hdelta : 0 < delta.

(** The churn factor of a row: the two Beta values are the same number,
    so the logarithm is taken at zero. *)
Lemma churn_log_alpha_0 (d : R) :
  delta <= d ->
  log (fdiv (fsub (SciPy.special_beta ext gamma d)
                  (SciPy.special_beta ext gamma d))
            (SciPy.special_beta ext gamma delta)) = NInf.
Proof.
  intros Hd. rewrite !special_beta_pos by lra.
  pose proof (Beta_pos gamma delta Hgamma Hdelta).
  cbn [fsub fneg fadd]. rewrite fdiv_Fin by lra.
  apply log_Fin_zero. field. lra.
Qed.

Lemma term_alpha_0_not_finite (r : row) (d : R) :
  delta <= d ->
  ~ is_finite (LN.LogLikelihood_Alpha ext gamma delta (r, d, d)).
Proof.
  intros Hd. unfold LN.LogLikelihood_Alpha.
  rewrite churn_log_alpha_0 by assumption.
  apply fadd_not_finite_l, fmul_NInf_not_finite.
Qed.

Lemma term_alpha_0_NInf (r : row) (d l m : R) :
  delta <= d -> Cust_Lost r = Fin l -> 0 < l -> Remaining r = Fin m ->
  LN.LogLikelihood_Alpha ext gamma delta (r, d, d) = NInf.
Proof.
  intros Hd Hl Hpos Hm. unfold LN.LogLikelihood_Alpha.
  rewrite churn_log_alpha_0 by assumption. rewrite Hl, Hm.
  rewrite log_ratio by lra.
  cbn [fmul]. now rewrite signed_inf_pos.
Qed.

(** At [alpha = 0] the extended likelihood of any non-empty frame is
    infinite or [nan]. *)
Lemma NLogL_Alpha_0_not_finite (Data : DataFrame) :
  Data <> [] -> ~ is_finite (LN.NLogL_Alpha ext (gamma, delta, 0) Data).
Proof.
  intros Hne. unfold LN.NLogL_Alpha. apply fneg_not_finite.
  apply sum_not_finite; [now apply zip_DeltaUpd_nonempty|].
  rewrite DeltaUpd_alpha_0.
  - apply Forall_forall. intros v Hv. apply in_map_iff in Hv.
    destruct Hv as [[[r d1] d2] [<- Hin]].
    pose proof (zip_same_Forall
                  (fun rd => ~ is_finite
                               (LN.LogLikelihood_Alpha ext gamma delta rd))
                  (fun d => delta <= d)
                  term_alpha_0_not_finite Data
                  (LN.DeltaUpd2 delta 0 Data)
                  (DeltaUpd2_ge delta 0 Data)) as H.
    rewrite Forall_forall in H. exact (H _ Hin).
Qed.

Lemma sum_all_NInf (l : list npfloat) :
  l <> [] -> Forall (fun v => v = NInf) l -> NumPy.sum l = NInf.
Proof.
  intros Hne Hall. destruct l as [| v l]; [contradiction|].
  inversion Hall as [| v' l' Hv Hl]; subst.
  unfold NumPy.sum. cbn [fold_left fadd].
  clear Hne Hall. induction l as [| w l IH]; [reflexivity|].
  inversion Hl; subst. cbn [fold_left fadd]. now apply IH.
Qed.

(** When every period lost customers, it is [+inf]. *)
Lemma NLogL_Alpha_0_PInf (Data : DataFrame) :
  Data <> [] ->
  Forall (fun r => exists l m, Cust_Lost r = Fin l /\ 0 < l /\
                               Remaining r = Fin m) Data ->
  LN.NLogL_Alpha ext (gamma, delta, 0) Data = PInf.
Proof.
  intros Hne Hrows. unfold LN.NLogL_Alpha.
  rewrite sum_all_NInf; [reflexivity | now apply zip_DeltaUpd_nonempty |].
  rewrite DeltaUpd_alpha_0.
  - pose proof (DeltaUpd2_ge delta 0 Data) as Hds.
    revert Hrows Hds. generalize (LN.DeltaUpd2 delta 0 Data) as ds.
    clear Hne. induction Data as [| r Data IH]; intros ds Hrows Hds.
    + constructor.
    + destruct ds as [| d ds]; [constructor|].
      inversion Hrows as [| r' D' [l [m [Hl [Hpos Hm]]]] Hrest]; subst.
      inversion Hds; subst. cbn [LN.zip map]. constructor.
      * now apply (term_alpha_0_NInf r d l m).
      * now apply IH.
Qed.

End Alpha0.

(** What the two cumulative exponents of the code are, on the table of a
    raw sequence: [DeltaUpd2] is [delta + cumB], and [DeltaUpd1] is
    [delta + 1 + cumA]. *)
Lemma cumsum_seq (h : nat -> R) (k p : nat) (acc : R) :
  cumsum_from acc (map h (seq p k)) =
  map (fun t => acc + Spec.big_sum h (seq p (S t - p))) (seq p k).
Proof.
  revert p acc. induction k as [| k IH]; intros p acc; [reflexivity|].
  cbn [seq map cumsum_from]. f_equal.
  - replace (S p - p)%nat with 1%nat by lia. simpl. ring.
  - rewrite IH. apply map_ext_in. intros t Ht. apply in_seq in Ht.
    replace (S t - p)%nat with (S (S t - S p)) by lia.
    cbn [seq Spec.big_sum fold_right]. unfold Spec.big_sum. ring.
Qed.

Lemma DeltaUpd2_table (Delta Alpha : R) (raw : list R) (T : nat) :
  LN.DeltaUpd2 Delta Alpha (map (table_row raw) (seq 1 T)) =
  map (fun t => Delta + Spec.cumB Alpha t) (seq 1 T).
Proof.
  unfold LN.DeltaUpd2, cumsum. rewrite map_map.
  cbn [table_row Period].
  rewrite (cumsum_seq (fun t => maximum 0 (1 + Alpha * INR t))).
  rewrite map_map. apply map_ext. intros t.
  unfold Spec.cumB, Spec.clipped, maximum.
  replace (S t - 1)%nat with t by lia. ring.
Qed.

Lemma DeltaUpd1_table (Delta Alpha : R) (raw : list R) (T : nat) :
  LN.DeltaUpd1 Delta Alpha (map (table_row raw) (seq 1 T)) =
  map (fun t => Delta + (1 + Spec.cumA Alpha t)) (seq 1 T).
Proof.
  unfold LN.DeltaUpd1, cumsum. rewrite map_map.
  cbn [table_row Period].
  rewrite (cumsum_seq (fun t => maximum 0 (1 + Alpha * (INR t - 1)))).
  rewrite map_map. apply map_ext_in. intros t Ht. apply in_seq in Ht.
  f_equal. rewrite Rplus_0_l.
  replace (S t - 1)%nat with t by lia.
  rewrite (big_sum_ext_in _ (fun i => Spec.clipped Alpha (i - 1))).
  2:{ intros i Hi. apply in_seq in Hi. unfold Spec.clipped, maximum.
      rewrite minus_INR by lia. reflexivity. }
  rewrite big_sum_shift. unfold Spec.cumA.
  destruct t as [| t]; [lia|].
  replace (S t - 1)%nat with t by lia.
  cbn [seq Spec.big_sum fold_right]. f_equal.
  unfold Spec.clipped. simpl INR. rewrite Rmult_0_r, Rplus_0_r.
  apply Rmax_right. lra.
Qed.

(** The specification's own extended formula does reduce to the base
    formula at [alpha = 0]. *)
Lemma cumB_alpha_0 (t : nat) : Spec.cumB 0 t = INR t.
Proof.
  unfold Spec.cumB.
  assert (H : forall k p, Spec.big_sum (Spec.clipped 0) (seq p k) = INR k).
  { induction k as [| k IH]; intros p; [reflexivity|].
    cbn [seq Spec.big_sum fold_right].
    change (fold_right (fun t acc => Spec.clipped 0 t + acc) 0 (seq (S p) k))
      with (Spec.big_sum (Spec.clipped 0) (seq (S p) k)).
    rewrite IH, S_INR. unfold Spec.clipped.
    rewrite Rmult_0_l, Rplus_0_r, Rmax_right by lra. ring. }
  apply H.
Qed.

Lemma cumA_alpha_0 (t : nat) : (1 <= t)%nat -> Spec.cumA 0 t = INR t - 1.
Proof.
  intros Ht. unfold Spec.cumA.
  change (Spec.big_sum (Spec.clipped 0) (seq 1 (t - 1)))
    with (Spec.cumB 0 (t - 1)).
  rewrite cumB_alpha_0, minus_INR by lia. reflexivity.
Qed.

Lemma Spec_reduction (raw : list R) (gamma delta : R) :
  0 < gamma -> 0 < delta ->
  Spec.NLL_extended raw gamma delta 0 = Spec.NLL_base raw gamma delta.
Proof.
  intros Hg Hd. unfold Spec.NLL_extended, Spec.NLL_base.
  rewrite cumB_alpha_0. do 2 f_equal.
  apply big_sum_ext_in. intros t Ht. apply in_seq in Ht.
  rewrite cumB_alpha_0, cumA_alpha_0 by lia.
  pose proof (INR_ge_1 t ltac:(lia)) as H1.
  do 3 f_equal.
  replace (delta + (INR t - 1)) with (delta + INR t - 1) by ring.
  rewrite (Beta_add gamma (delta + INR t - 1)) by lra.
  replace (delta + INR t - 1 + 1) with (delta + INR t) by ring.
  ring.
Qed.

End ExtendedFacts.
Import ExtendedFacts.

Module ExtendedTheorems.
Import BetaFacts.

Lemma RawData_rows_lose :
  Forall (fun r => exists l m, Cust_Lost r = Fin l /\ 0 < l /\
                               Remaining r = Fin m)
         (map (table_row LN.RawData) (seq 1 4)).
Proof.
  cbn [map seq].
  repeat (apply Forall_cons;
          [eexists; eexists; cbn;
           split; [reflexivity | split; [lra | reflexivity]] |]).
  apply Forall_nil.
Qed.

(** C1, at the notebook's own data with [gamma = delta = 1]: the extended
    likelihood at [alpha = 0] is [+inf], the base likelihood is the finite
    number of the specification's formula.  Nor is the input special: for
    [gamma, delta > 0] the extended likelihood at [alpha = 0] is infinite
    or [nan] on every non-empty frame. *)
Theorem reduction_fails_on_notebook_data (ext : R -> R -> npfloat) :
  (exists Data : DataFrame,
      LN.FormatBGData LN.RawData = Py.Returns Data /\
      LN.NLogL_Alpha ext (1, 1, 0) Data = PInf /\
      LN.NLogL ext (1, 1) Data = Fin (Spec.NLL_base LN.RawData 1 1)) /\
  (forall (gamma delta : R) (Data : DataFrame),
      0 < gamma -> 0 < delta -> Data <> [] ->
      ~ is_finite (LN.NLogL_Alpha ext (gamma, delta, 0) Data)).
Proof.
  split.
  - eexists. split; [apply FormatBGData_rows|]. split.
    + apply NLogL_Alpha_0_PInf; try lra; [discriminate|].
      apply RawData_rows_lose.
    + apply (NLogL_table ext 1 1); try lra. discriminate.
  - intros gamma delta Data Hg Hd Hne.
    now apply NLogL_Alpha_0_not_finite.
Qed.

(** C3, at the same input: the code's value is [+inf], not the value of
    the specification's formula, which there is the base likelihood; on
    the table of any raw sequence the code's first cumulative exponent is
    [1 + cumA[t]], one clipped term more than the specification's
    [cumA[t]], while the second is [cumB[t]]. *)
Theorem extended_formula_off_by_one (ext : R -> R -> npfloat) :
  (exists Data : DataFrame,
      LN.FormatBGData LN.RawData = Py.Returns Data /\
      LN.NLogL_Alpha ext (1, 1, 0) Data = PInf /\
      LN.NLogL_Alpha ext (1, 1, 0) Data <>
        Fin (Spec.NLL_extended LN.RawData 1 1 0) /\
      Spec.NLL_extended LN.RawData 1 1 0 = Spec.NLL_base LN.RawData 1 1) /\
  (forall (Delta Alpha : R) (r0 : R) (rest : list R) (Data : DataFrame),
      LN.FormatBGData (r0 :: rest) = Py.Returns Data ->
      LN.DeltaUpd1 Delta Alpha Data =
        map (fun t => Delta + (1 + Spec.cumA Alpha t))
            (seq 1 (length rest)) /\
      LN.DeltaUpd2 Delta Alpha Data =
        map (fun t => Delta + Spec.cumB Alpha t) (seq 1 (length rest))).
Proof.
  split.
  - eexists. split; [apply FormatBGData_rows|].
    assert (E : LN.NLogL_Alpha ext (1, 1, 0)
                  (map (table_row LN.RawData) (seq 1 (length [800; 275; 250; 220])))
                = PInf).
    { apply NLogL_Alpha_0_PInf; try lra; [discriminate|].
      apply RawData_rows_lose. }
    split; [exact E|]. split.
    + unfold LN.RawData in *. rewrite E. discriminate.
    + apply Spec_reduction; lra.
  - intros Delta Alpha r0 rest Data HData.
    unfold LN.FormatBGData in HData. rewrite FormatBGData_rows in HData.
    injection HData as <-.
    split; [apply DeltaUpd1_table | apply DeltaUpd2_table].
Qed.

End ExtendedTheorems.

(* ================================================================== *)
(** ** The projections *)

Module ProjectionFacts.
Import BetaFacts.

Lemma pd_cumsum_from_Fin (l : list R) (acc : R) :
  pd_cumsum_from (Fin acc) (map Fin l) = map Fin (cumsum_from acc l).
Proof.
  revert acc. induction l as [| v l IH]; intros acc; [reflexivity|].
  cbn [map pd_cumsum_from cumsum_from fadd]. now rewrite IH.
Qed.

Lemma BG_out_frame_map (f2 f3 : nat -> npfloat) (l : list nat) :
  BG.out_frame l (map f2 l) (map f3 l) =
  map (fun t => BG.mkOut t (f2 t) (f3 t)) l.
Proof. induction l as [| t l IH]; simpl; [reflexivity | now rewrite IH]. Qed.

Lemma LN_out_frame_map (f : nat -> npfloat) (l : list nat) :
  LN.out_frame l (map f l) = map (fun t => LN.mkOut t (f t)) l.
Proof. induction l as [| t l IH]; simpl; [reflexivity | now rewrite IH]. Qed.

Lemma arange_1 (H : nat) : arange 1 (H + 1) = seq 1 H.
Proof. unfold arange. f_equal. lia. Qed.

Lemma big_sum_nonneg (f : nat -> R) (l : list nat) :
  (forall t, 0 <= f t) -> 0 <= Spec.big_sum f l.
Proof.
  intros Hf. induction l as [| t l IH]; simpl; [lra|].
  specialize (Hf t). lra.
Qed.

Lemma big_sum_snoc (f : nat -> R) (p k : nat) :
  Spec.big_sum f (seq p (S k)) = Spec.big_sum f (seq p k) + f (p + k)%nat.
Proof.
  revert p. induction k as [| k IH]; intros p.
  - simpl. rewrite Nat.add_0_r. ring.
  - change (seq p (S (S k))) with (p :: seq (S p) (S k)).
    cbn [Spec.big_sum fold_right].
    change (fold_right (fun t acc => f t + acc) 0 (seq (S p) (S k)))
      with (Spec.big_sum f (seq (S p) (S k))).
    rewrite IH. replace (S p + k)%nat with (p + S k)%nat by lia.
    simpl. ring.
Qed.

Lemma clipped_nonneg (alpha : R) (i : nat) : 0 <= Spec.clipped alpha i.
Proof. apply Rmax_l. Qed.

Lemma cumB_nonneg (alpha : R) (t : nat) : 0 <= Spec.cumB alpha t.
Proof. apply big_sum_nonneg, clipped_nonneg. Qed.

Lemma cumB_step (alpha : R) (t : nat) :
  Spec.cumB alpha t <= Spec.cumB alpha (S t).
Proof.
  unfold Spec.cumB. rewrite big_sum_snoc.
  pose proof (clipped_nonneg alpha (1 + t)). lra.
Qed.

Lemma non_increasing_map_seq (f : nat -> R) (k p : nat) :
  (forall t, f (S t) <= f t) -> Spec.non_increasing (map f (seq p k)).
Proof.
  intros Hf. revert p. induction k as [| k IH]; intros p; [exact I|].
  cbn [seq map Spec.non_increasing]. split; [| apply IH].
  destruct k; simpl; [exact I | apply Hf].
Qed.

Section Project.
Variable ext : R -> R -> npfloat.
Variables N gamma delta : R.
Hypothesis Hgamma : 0 < gamma.
Hypothesis Hdelta : 0 < delta.

Local Abbreviation survival := (Aux.survival gamma delta).

Lemma survival_0 : survival 0 = 1.
Proof.
  unfold Aux.survival. rewrite Rplus_0_r.
  pose proof (Beta_pos gamma delta Hgamma Hdelta). field. lra.
Qed.

Lemma survival_antitone (c c' : R) :
  0 <= c -> c <= c' -> survival c' <= survival c.
Proof.
  intros Hc Hcc'. unfold Aux.survival.
  pose proof (Beta_pos gamma delta Hgamma Hdelta) as HB.
  apply Rmult_le_compat_r; [left; now apply Rinv_0_lt_compat|].
  apply Beta_antitone; lra.
Qed.

Lemma survival_bounds (c : R) : 0 <= c -> 0 < survival c <= 1.
Proof.
  intros Hc. split.
  - unfold Aux.survival. apply Rdiv_lt_0_compat; apply Beta_pos; lra.
  - rewrite <- survival_0. apply survival_antitone; lra.
Qed.

(** The churn probability of period [t] is what the survival fraction
    drops by: the additive identity of the Beta function. *)
Lemma churn_is_drop (t : nat) :
  (1 <= t)%nat ->
  Beta (gamma + 1) (delta + INR t - 1) / Beta gamma delta =
  survival (INR (t - 1)) - survival (INR t).
Proof.
  intros Ht. pose proof (INR_ge_1 t Ht) as H1. unfold Aux.survival.
  rewrite minus_INR by lia. simpl INR.
  replace (delta + (INR t - 1)) with (delta + INR t - 1) by ring.
  rewrite (Beta_add gamma (delta + INR t - 1)) by lra.
  replace (delta + INR t - 1 + 1) with (delta + INR t) by ring.
  pose proof (Beta_pos gamma delta Hgamma Hdelta). field. lra.
Qed.

Lemma churn_telescopes (k p : nat) :
  (1 <= p)%nat ->
  Spec.big_sum
    (fun t => Beta (gamma + 1) (delta + INR t - 1) / Beta gamma delta)
    (seq p k) =
  survival (INR (p - 1)) - survival (INR (p + k - 1)).
Proof.
  revert p. induction k as [| k IH]; intros p Hp.
  - simpl. replace (p + 0 - 1)%nat with (p - 1)%nat by lia. ring.
  - cbn [seq Spec.big_sum fold_right].
    change (fold_right
              (fun t acc =>
                 Beta (gamma + 1) (delta + INR t - 1) / Beta gamma delta + acc)
              0 (seq (S p) k))
      with (Spec.big_sum
              (fun t => Beta (gamma + 1) (delta + INR t - 1) /
                        Beta gamma delta) (seq (S p) k)).
    rewrite IH by lia. rewrite churn_is_drop by lia.
    replace (S p - 1)%nat with p by lia.
    replace (S p + k - 1)%nat with (p + S k - 1)%nat by lia. ring.
Qed.

(** The frame the first notebook's [ExtrapolateBG] returns. *)
Lemma BG_ExtrapolateBG_rows (H : nat) :
  BG.ExtrapolateBG ext (Fin N) gamma delta H =
  map (fun t => BG.mkOut t (Fin (N - N * survival (INR t)))
                           (Fin (N * survival (INR t))))
      (seq 1 H).
Proof.
  unfold BG.ExtrapolateBG. rewrite arange_1.
  rewrite (map_ext_in _ (fun t => Fin (Beta (gamma + 1) (delta + INR t - 1) /
                                       Beta gamma delta))).
  2:{ intros t Ht. apply in_seq in Ht.
      pose proof (INR_ge_1 t ltac:(lia)).
      rewrite !special_beta_pos by lra.
      pose proof (Beta_pos gamma delta Hgamma Hdelta).
      apply fdiv_Fin. lra. }
  unfold pd_cumsum.
  rewrite <- (map_map
                (fun t => Beta (gamma + 1) (delta + INR t - 1) /
                          Beta gamma delta) Fin).
  rewrite pd_cumsum_from_Fin, cumsum_seq, !map_map.
  rewrite BG_out_frame_map.
  apply map_ext_in. intros t Ht. apply in_seq in Ht.
  replace (S t - 1)%nat with t by lia.
  rewrite churn_telescopes by lia.
  replace (1 - 1)%nat with 0%nat by lia.
  replace (1 + t - 1)%nat with t by lia.
  simpl INR. rewrite survival_0.
  cbn [fmul fsub fneg fadd]. f_equal; f_equal; ring.
Qed.

(** The frame the second notebook's [ExtrapolateBG] returns. *)
Lemma LN_ExtrapolateBG_rows (alpha : R) (H : nat) :
  LN.ExtrapolateBG ext (Fin N) gamma delta alpha H =
  map (fun t => LN.mkOut t (Fin (N * survival (Spec.cumB alpha t))))
      (seq 1 H).
Proof.
  unfold LN.ExtrapolateBG. rewrite arange_1.
  unfold cumsum.
  rewrite (cumsum_seq (fun t => maximum 0 (1 + alpha * INR t))).
  rewrite !map_map, LN_out_frame_map.
  apply map_ext. intros t.
  replace (S t - 1)%nat with t by lia. rewrite Rplus_0_l.
  change (Spec.big_sum (fun t0 => maximum 0 (1 + alpha * INR t0)) (seq 1 t))
    with (Spec.cumB alpha t).
  pose proof (cumB_nonneg alpha t).
  rewrite !special_beta_pos by lra.
  pose proof (Beta_pos gamma delta Hgamma Hdelta).
  rewrite fdiv_Fin by lra. reflexivity.
Qed.

Lemma survival_cumB_step (alpha : R) (t : nat) :
  N >= 0 ->
  N * survival (Spec.cumB alpha (S t)) <= N * survival (Spec.cumB alpha t).
Proof.
  intros HN. apply Rmult_le_compat_l; [lra|].
  apply survival_antitone; [apply cumB_nonneg | apply cumB_step].
Qed.

Lemma survival_cumB_bounds (alpha : R) (t : nat) :
  N >= 0 -> 0 <= N * survival (Spec.cumB alpha t) <= N.
Proof.
  intros HN. pose proof (survival_bounds _ (cumB_nonneg alpha t)). nra.
Qed.

End Project.

End ProjectionFacts.
Import ProjectionFacts.

Module ProjectionTheorems.
Import BetaFacts.








End ProjectionTheorems.

(* ================================================================== *)
(** ** Infeasible parameters *)

Module InfeasibleFacts.

Lemma sum_head_NaN (l : list npfloat) : NumPy.sum (NaN :: l) = NaN.
Proof. unfold NumPy.sum. cbn [fold_left fadd]. apply sum_from_NaN. Qed.

Lemma sum_all_NaN (l : list npfloat) :
  l <> [] -> Forall (fun v => v = NaN) l -> NumPy.sum l = NaN.
Proof.
  intros Hne Hall. destruct l as [| v l]; [contradiction|].
  inversion Hall; subst. apply sum_head_NaN.
Qed.

Section NaNDenominator.
Variable ext : R -> R -> npfloat.
Variables gamma delta : R.
Hypothesis Hnan : SciPy.special_beta ext gamma delta = NaN.

Lemma BG_LogLikelihood_NaN (r : row) :
  BG.LogLikelihood ext gamma delta r = NaN.
Proof.
  unfold BG.LogLikelihood. rewrite Hnan, !fdiv_NaN_r.
  cbn [log]. now rewrite fmul_NaN_r.
Qed.

Lemma LN_LogLikelihood_Alpha_NaN (rd : row * R * R) :
  LN.LogLikelihood_Alpha ext gamma delta rd = NaN.
Proof.
  destruct rd as [[r d1] d2]. unfold LN.LogLikelihood_Alpha.
  rewrite Hnan, !fdiv_NaN_r. cbn [log]. now rewrite fmul_NaN_r.
Qed.

Lemma infeasible_of_NaN : gamma <= 0 \/ delta <= 0.
Proof.
  destruct (Rlt_dec 0 gamma) as [Hg |]; [| lra].
  destruct (Rlt_dec 0 delta) as [Hd |]; [| lra].
  rewrite special_beta_pos in Hnan by assumption. discriminate.
Qed.

End NaNDenominator.

(** The first row at [gamma = -1], [delta = 1], for a library that
    answers [+inf] at the pole [B(0, 1)]. *)
Lemma pole_row_NaN (ext : R -> R -> npfloat) (raw : list R) :
  ext 0 1 = PInf ->
  ext (-1) 1 = Fin (-1) \/ ext (-1) 1 = PInf \/ ext (-1) 1 = NaN ->
  BG.LogLikelihood ext (-1) 1 (table_row raw 1) = NaN.
Proof.
  intros Hpole Hden. unfold BG.LogLikelihood.
  cbn [table_row Cust_Lost Remaining Period Final_Period].
  rewrite (special_beta_ext_l ext (-1 + 1)) by lra.
  rewrite (special_beta_ext_l ext (-1) 1) by lra.
  replace (-1 + 1) with 0 by lra.
  replace (1 + INR 1 - 1) with 1 by (simpl; lra).
  rewrite Hpole.
  destruct Hden as [E | [E | E]]; rewrite E; cbn [fdiv].
  - destruct (Rlt_dec (-1) 0); [| lra]. reflexivity.
  - reflexivity.
  - reflexivity.
Qed.

End InfeasibleFacts.
Import InfeasibleFacts.

Module InfeasibleTheorems.




End InfeasibleTheorems.

(* ================================================================== *)
(** ** Fitting *)

Module FitTheorems.

(** C10, as the claim states it, fails for the first notebook: two
    searches that end at the same parameters, one converged and one not,
    give the same [FitBGModel] result, which carries no flag and no
    objective value. *)
Lemma fit_drops_convergence_flag :
  (forall (ext : R -> R -> npfloat) (Data : DataFrame),
      BG.FitBGModel ext (one_shot true) Data =
      BG.FitBGModel ext (one_shot false) Data) /\
  (forall (ext : R -> R -> npfloat) (Data : DataFrame),
      Py.success (one_shot true (R * R)%type (BG.NLogL ext) (1, 1)
                           Py.Nelder_Mead Data) = true /\
      Py.success (one_shot false (R * R)%type (BG.NLogL ext) (1, 1)
                           Py.Nelder_Mead Data) = false).
Proof. split; intros ext Data; [reflexivity | split; reflexivity]. Qed.

(** C10, amended.  Every fit starts the Nelder-Mead search from
    [gamma = 1, delta = 1] (and [alpha = 0] in the extended variant).
    The second notebook's [FitBGModel_Base] and [FitBGModel_Alpha] return
    the optimizer's whole result, so the parameters come with the
    convergence flag and the objective value; the first notebook's
    [FitBGModel] returns the fitted parameters alone, the [x] of what
    [FitBGModel_Base] returns. *)
Theorem fit_start_and_result
    (ext : R -> R -> npfloat) (minimize : Py.minimizer DataFrame)
    (Data : DataFrame) :
  LN.FitBGModel_Base ext minimize Data =
    minimize (R * R)%type (LN.NLogL ext) (1, 1) Py.Nelder_Mead Data /\
  LN.FitBGModel_Alpha ext minimize Data =
    minimize (R * R * R)%type (LN.NLogL_Alpha ext) (1, 1, 0)
             Py.Nelder_Mead Data /\
  BG.FitBGModel ext minimize Data =
    Py.x (minimize (R * R)%type (BG.NLogL ext) (1, 1) Py.Nelder_Mead Data) /\
  BG.FitBGModel ext minimize Data =
    Py.x (LN.FitBGModel_Base ext minimize Data).
Proof. repeat split. Qed.

End FitTheorems.

(* ================================================================== *)
(** ** More on the Beta function: it decreases strictly *)

Module BetaStrict.
Import BetaFacts.

Lemma Beta_partial_contract (n : nat) (x y y' : R) :
  0 < x -> 0 < y -> y <= y' ->
  Beta_partial x y' n <=
  ((x + y') * y / ((x + y) * y')) * Beta_partial x y n.
Proof.
  intros Hx Hy Hyy'. unfold Beta_partial.
  replace ((x + y') * y / ((x + y) * y') *
           ((x + y) / (x * y) * euler_prod n x y))
    with ((x + y') / (x * y') * euler_prod n x y) by (field; lra).
  apply Rmult_le_compat_l.
  - left. apply Rdiv_lt_0_compat; nra.
  - now apply euler_prod_antitone.
Qed.

Lemma Beta_strict_antitone (x y y' : R) :
  0 < x -> 0 < y -> y < y' -> Beta x y' < Beta x y.
Proof.
  intros Hx Hy Hyy'.
  set (c := (x + y') * y / ((x + y) * y')).
  assert (Hc : c < 1).
  { unfold c. apply (Rmult_lt_reg_r ((x + y) * y')); [nra|].
    replace ((x + y') * y / ((x + y) * y') * ((x + y) * y'))
      with ((x + y') * y) by (field; lra).
    nra. }
  pose proof (Beta_pos x y Hx Hy) as HB.
  apply Rle_lt_trans with (c * Beta x y); [| nra].
  apply (Rle_cv_lim (Un := Beta_partial x y')
                    (Vn := fun n => c * Beta_partial x y n)).
  - intros n. apply Beta_partial_contract; lra.
  - apply Beta_cv; lra.
  - apply (CV_mult (fun _ => c)); [apply Un_cv_const | now apply Beta_cv].
Qed.

(** [B(x+1, y) < B(x, y)]: part of the mass moves to [B(x, y+1)]. *)
Lemma Beta_succ_l_lt (x y : R) : 0 < x -> 0 < y -> Beta (x + 1) y < Beta x y.
Proof.
  intros Hx Hy. rewrite (Beta_add x y) by assumption.
  pose proof (Beta_pos x (y + 1) Hx ltac:(lra)). lra.
Qed.

End BetaStrict.
Import BetaStrict.

(* ================================================================== *)
(** ** More on the survival table *)

Module TableExtras.

Lemma lost_telescopes (raw : list R) (k p : nat) :
  Spec.big_sum (fun t => -1 * (nth t raw 0 + - nth (t - 1) raw 0))
               (seq (S p) k) =
  nth p raw 0 - nth (p + k) raw 0.
Proof.
  revert p. induction k as [| k IH]; intros p.
  - simpl. rewrite Nat.add_0_r. ring.
  - cbn [seq Spec.big_sum fold_right].
    change (fold_right
              (fun t acc => -1 * (nth t raw 0 + - nth (t - 1) raw 0) + acc)
              0 (seq (S (S p)) k))
      with (Spec.big_sum
              (fun t => -1 * (nth t raw 0 + - nth (t - 1) raw 0))
              (seq (S (S p)) k)).
    rewrite IH. replace (S p - 1)%nat with p by lia.
    replace (S p + k)%nat with (p + S k)%nat by lia. ring.
Qed.



End TableExtras.

(* ================================================================== *)
(** ** More on the likelihood functions *)

Module LikelihoodExtras.
Import BetaFacts.

Lemma big_sum_nonpos_in (f : nat -> R) (l : list nat) :
  (forall t, In t l -> f t <= 0) -> Spec.big_sum f l <= 0.
Proof.
  induction l as [| t l IH]; intros H; simpl; [lra|].
  assert (f t <= 0) by (apply H; now left).
  assert (Spec.big_sum f l <= 0) by (apply IH; intros u Hu; apply H; now right).
  unfold Spec.big_sum in *. lra.
Qed.

Lemma ln_nonpos (v : R) : 0 < v -> v <= 1 -> ln v <= 0.
Proof.
  intros Hv [Hlt | ->]; [| rewrite ln_1; lra].
  rewrite <- ln_1. left. now apply ln_increasing.
Qed.

Lemma log_Fin_neg (v : R) : v < 0 -> log (Fin v) = NaN.
Proof.
  intros H. unfold log. destruct (Rlt_dec 0 v); [lra|].
  destruct (Req_dec_T v 0); [lra | reflexivity].
Qed.

Section Probabilities.
Variables gamma delta : R.
Hypothesis Hgamma : 0 < gamma.
Hypothesis Hdelta : 0 < delta.

(** The churn probability of a period and the survival probability are
    probabilities. *)
Lemma churn_ratio_le_1 (t : nat) :
  (1 <= t)%nat ->
  0 < Beta (gamma + 1) (delta + INR t - 1) / Beta gamma delta <= 1.
Proof.
  intros Ht. pose proof (INR_ge_1 t Ht) as H1.
  pose proof (Beta_pos gamma delta Hgamma Hdelta) as HB.
  pose proof (Beta_pos (gamma + 1) (delta + INR t - 1)
                       ltac:(lra) ltac:(lra)) as HB1.
  pose proof (Beta_succ_l_lt gamma (delta + INR t - 1)
                             Hgamma ltac:(lra)) as HB2.
  pose proof (Beta_antitone gamma delta (delta + INR t - 1)
                            Hgamma Hdelta ltac:(lra)) as HB3.
  split; [now apply Rdiv_lt_0_compat|].
  apply div_le_bound; lra.
Qed.

Lemma survival_ratio_le_1 (t : nat) :
  0 < Beta gamma (delta + INR t) / Beta gamma delta <= 1.
Proof.
  pose proof (pos_INR t) as H0.
  pose proof (Beta_pos gamma delta Hgamma Hdelta) as HB.
  pose proof (Beta_pos gamma (delta + INR t) Hgamma ltac:(lra)) as HB1.
  pose proof (Beta_antitone gamma delta (delta + INR t)
                            Hgamma Hdelta ltac:(lra)) as HB3.
  split; [now apply Rdiv_lt_0_compat|].
  apply div_le_bound; lra.
Qed.

Lemma NLL_base_nonneg (raw : list R) :
  Spec.non_increasing raw -> Spec.non_negative raw ->
  (2 <= length raw)%nat ->
  0 <= Spec.NLL_base raw gamma delta.
Proof.
  intros Hs Hpos Hlen. unfold Spec.NLL_base, Spec.final_period.
  assert (Hsum :
    Spec.big_sum
      (fun t => Spec.lost raw t *
                ln (Beta (gamma + 1) (delta + INR t - 1) / Beta gamma delta))
      (seq 1 (length raw - 1)) <= 0).
  { apply big_sum_nonpos_in. intros t Ht. apply in_seq in Ht.
    assert (Hl : 0 <= Spec.lost raw t).
    { unfold Spec.lost, Spec.remaining.
      destruct t as [| t]; [lia|]. replace (S t - 1)%nat with t by lia.
      pose proof (TableTheorems.non_increasing_step raw t Hs ltac:(lia)). lra. }
    destruct (churn_ratio_le_1 t ltac:(lia)) as [Hp H1].
    pose proof (ln_nonpos _ Hp H1). nra. }
  assert (Hrem : 0 <= Spec.remaining raw (length raw - 1)).
  { unfold Spec.non_negative in Hpos. rewrite Forall_forall in Hpos.
    apply Hpos. apply nth_In. lia. }
  destruct (survival_ratio_le_1 (length raw - 1)) as [Hp H1].
  pose proof (ln_nonpos _ Hp H1). nra.
Qed.

End Probabilities.



End LikelihoodExtras.

(* ================================================================== *)
(** ** More on the extended likelihood *)

Module ExtendedExtras.
Import BetaFacts.
Import LikelihoodExtras.

Lemma cumB_succ (alpha : R) (t : nat) :
  Spec.cumB alpha (S t) = Spec.cumB alpha t + Spec.clipped alpha (S t).
Proof. unfold Spec.cumB. now rewrite big_sum_snoc. Qed.

Lemma cumB_cumA (alpha : R) (t : nat) :
  (1 <= t)%nat ->
  Spec.cumB alpha t = Spec.cumA alpha t + Spec.clipped alpha t.
Proof.
  intros Ht. destruct t as [| t]; [lia|].
  rewrite cumB_succ. unfold Spec.cumA, Spec.cumB.
  now replace (S t - 1)%nat with t by lia.
Qed.

Lemma cumA_nonneg (alpha : R) (t : nat) : 0 <= Spec.cumA alpha t.
Proof. apply big_sum_nonneg, clipped_nonneg. Qed.

Lemma zip_map (f : nat -> row) (g1 g2 : nat -> R) (l : list nat) :
  LN.zip (map f l) (map g1 l) (map g2 l) =
  map (fun t => (f t, g1 t, g2 t)) l.
Proof. induction l as [| t l IH]; simpl; [reflexivity | now rewrite IH]. Qed.

Section Rows.
Variable ext : R -> R -> npfloat.
Variables gamma delta alpha : R.
Hypothesis Hgamma : 0 < gamma.
Hypothesis Hdelta : 0 < delta.

Local Abbreviation alpha_term := (Aux2.alpha_term gamma delta alpha).

(** With [alpha > 0] the second exponent is the larger one, and the
    difference of the two Beta values is positive. *)
Lemma novelty_row (raw : list R) (t : nat) :
  0 < alpha -> (1 <= t)%nat ->
  LN.LogLikelihood_Alpha ext gamma delta
    (table_row raw t, delta + (1 + Spec.cumA alpha t),
     delta + Spec.cumB alpha t) =
  Fin (alpha_term raw t).
Proof.
  intros Ha Ht. pose proof (INR_ge_1 t Ht) as H1.
  pose proof (cumA_nonneg alpha t) as HA.
  pose proof (cumB_nonneg alpha t) as HB.
  pose proof (Beta_pos gamma delta Hgamma Hdelta) as HB0.
  assert (Hlt : delta + (1 + Spec.cumA alpha t) < delta + Spec.cumB alpha t).
  { rewrite cumB_cumA by assumption. unfold Spec.clipped.
    assert (0 < alpha * INR t) by nra.
    rewrite Rmax_right by lra. lra. }
  assert (Hpos1 : 0 < delta + (1 + Spec.cumA alpha t)) by lra.
  pose proof (Beta_strict_antitone gamma _ _ Hgamma Hpos1 Hlt) as Hs.
  unfold LN.LogLikelihood_Alpha, Aux2.alpha_term.
  cbn [table_row Cust_Lost Remaining Period Final_Period].
  rewrite !special_beta_pos by lra.
  cbn [fsub fneg fadd fmul]. rewrite !fdiv_Fin by lra.
  rewrite !log_Fin_pos.
  - cbn [fmul fadd]. f_equal. unfold Rminus. ring.
  - apply Rdiv_lt_0_compat; [apply Beta_pos; lra | lra].
  - apply Rdiv_lt_0_compat; lra.
Qed.

(** With [alpha < 0] the first exponent is the larger one already in
    period 1, and the logarithm is taken of a negative number. *)
Lemma loyalty_first_row (raw : list R) :
  alpha < 0 ->
  LN.LogLikelihood_Alpha ext gamma delta
    (table_row raw 1,
     delta + (0 + maximum 0 (1 + alpha * (INR 1 - 1))),
     delta + (0 + maximum 0 (1 + alpha * INR 1))) = NaN.
Proof.
  intros Ha. unfold maximum. simpl INR.
  replace (1 + alpha * (1 - 1)) with 1 by ring.
  rewrite (Rmax_right 0 1) by lra.
  assert (Hm : 0 <= Rmax 0 (1 + alpha * 1) < 1).
  { split; [apply Rmax_l|]. apply Rmax_lub_lt; lra. }
  pose proof (Beta_pos gamma delta Hgamma Hdelta) as HB0.
  pose proof (Beta_strict_antitone gamma
                (delta + (0 + Rmax 0 (1 + alpha * 1))) (delta + (0 + 1))
                Hgamma ltac:(lra) ltac:(lra)) as Hs.
  unfold LN.LogLikelihood_Alpha.
  cbn [table_row Cust_Lost Remaining Period Final_Period].
  rewrite !special_beta_pos by lra.
  cbn [fsub fneg fadd]. rewrite fdiv_Fin by lra.
  rewrite log_Fin_neg.
  - reflexivity.
  - apply Ropp_lt_cancel. rewrite Ropp_0.
    replace (- ((Beta gamma (delta + (0 + 1)) +
                 - Beta gamma (delta + (0 + Rmax 0 (1 + alpha * 1)))) /
                Beta gamma delta))
      with ((Beta gamma (delta + (0 + Rmax 0 (1 + alpha * 1))) -
             Beta gamma (delta + (0 + 1))) / Beta gamma delta)
      by (field; lra).
    apply Rdiv_lt_0_compat; lra.
Qed.

Lemma alpha_sum (r0 : R) (rest : list R) :
  rest <> [] ->
  - Spec.big_sum (alpha_term (r0 :: rest)) (seq 1 (length rest)) =
  NLL_alpha_code (r0 :: rest) gamma delta alpha.
Proof.
  intros Hne. unfold NLL_alpha_code, Spec.final_period. cbn [length].
  replace (S (length rest) - 1)%nat with (length rest) by lia.
  destruct (length rest) as [| k] eqn:Hlen.
  { destruct rest; [contradiction | discriminate]. }
  f_equal. unfold Aux2.alpha_term. cbn [length]. rewrite Hlen.
  replace (S (S k) - 1)%nat with (1 + k)%nat by lia.
  rewrite big_sum_plus.
  rewrite (big_sum_final
             (fun t => nth t (r0 :: rest) 0 *
                       ln (Beta gamma (delta + Spec.cumB alpha t) /
                           Beta gamma delta))
             1 k).
  unfold Spec.remaining. f_equal.
  apply big_sum_ext_in. intros t _. unfold Spec.lost, Spec.remaining. ring.
Qed.

End Rows.





End ExtendedExtras.

(* ================================================================== *)
(** ** More on the projections *)

Module ProjectionExtras.
Import BetaFacts.
Import ExtendedExtras.

Lemma clipped_zero (alpha : R) (s i : nat) :
  alpha <= 0 -> 1 + alpha * INR s <= 0 -> (s <= i)%nat ->
  Spec.clipped alpha i = 0.
Proof.
  intros Ha Hs Hi. unfold Spec.clipped.
  assert (INR s <= INR i) by now apply le_INR.
  apply Rmax_left. nra.
Qed.

(** Once an exponent is clipped to zero, the cumulative exponent stays
    where it is. *)
Lemma cumB_plateau (alpha : R) (s : nat) (k : nat) :
  alpha <= 0 -> 1 + alpha * INR (S s) <= 0 ->
  Spec.cumB alpha (s + k) = Spec.cumB alpha s.
Proof.
  intros Ha Hs. induction k as [| k IH].
  - now rewrite Nat.add_0_r.
  - replace (s + S k)%nat with (S (s + k)) by lia.
    rewrite cumB_succ, IH.
    rewrite (clipped_zero alpha (S s)) by (assumption || lia). ring.
Qed.

Lemma cumB_strict_step (alpha : R) (t : nat) :
  0 <= alpha -> Spec.cumB alpha t < Spec.cumB alpha (S t).
Proof.
  intros Ha. rewrite cumB_succ. unfold Spec.clipped.
  pose proof (pos_INR (S t)).
  assert (0 <= alpha * INR (S t)) by nra.
  rewrite Rmax_right by lra. lra.
Qed.

Lemma strictly_decreasing_map_seq (f : nat -> R) (k p : nat) :
  (forall t, f (S t) < f t) -> strictly_decreasing (map f (seq p k)).
Proof.
  intros Hf. revert p. induction k as [| k IH]; intros p; [exact I|].
  cbn [seq map strictly_decreasing]. split; [| apply IH].
  destruct k; simpl; [exact I | apply Hf].
Qed.

Lemma pd_cumsum_from_firstn (l1 l2 : list npfloat) (acc : npfloat) :
  firstn (length l1) (pd_cumsum_from acc (l1 ++ l2)) =
  pd_cumsum_from acc l1.
Proof.
  revert acc. induction l1 as [| v l1 IH]; intros acc; [reflexivity|].
  destruct v; cbn [app length pd_cumsum_from firstn]; now rewrite IH.
Qed.

Lemma cumsum_from_firstn (l1 l2 : list R) (acc : R) :
  firstn (length l1) (cumsum_from acc (l1 ++ l2)) = cumsum_from acc l1.
Proof.
  revert acc. induction l1 as [| v l1 IH]; intros acc; [reflexivity|].
  cbn [app length cumsum_from firstn]. now rewrite IH.
Qed.

Lemma BG_out_frame_firstn (n : nat) (idx : list nat)
    (lost rem : list npfloat) :
  firstn n (BG.out_frame idx lost rem) =
  BG.out_frame (firstn n idx) (firstn n lost) (firstn n rem).
Proof.
  revert idx lost rem. induction n as [| n IH]; intros idx lost rem.
  - reflexivity.
  - destruct idx, lost, rem; try reflexivity.
    cbn [BG.out_frame firstn]. now rewrite IH.
Qed.

Lemma LN_out_frame_firstn (n : nat) (idx : list nat) (rem : list npfloat) :
  firstn n (LN.out_frame idx rem) =
  LN.out_frame (firstn n idx) (firstn n rem).
Proof.
  revert idx rem. induction n as [| n IH]; intros idx rem.
  - reflexivity.
  - destruct idx, rem; try reflexivity.
    cbn [LN.out_frame firstn]. now rewrite IH.
Qed.

Lemma nth_map_seq (f : nat -> R) (p k i : nat) (d : R) :
  (i < k)%nat -> nth i (map f (seq p k)) d = f (p + i)%nat.
Proof.
  intros Hi.
  rewrite (nth_indep _ d (f 0%nat)) by (rewrite length_map, length_seq; lia).
  rewrite (map_nth f), seq_nth by lia. reflexivity.
Qed.

Lemma firstn_seq_app (p H K : nat) :
  seq p (H + K) = seq p H ++ seq (p + H) K /\ length (seq p H) = H.
Proof. split; [apply seq_app | apply length_seq]. Qed.





(** X8.  Asking for a longer horizon changes nothing in the periods
    already projected: the first [H] rows of a projection over [H + K]
    periods are the projection over [H] periods, in both notebooks and
    for all parameters. *)
Theorem projection_horizon_prefix
    (ext : R -> R -> npfloat) (Initial_Pop : npfloat)
    (gamma delta alpha : R) (H K : nat) :
  firstn H (BG.ExtrapolateBG ext Initial_Pop gamma delta (H + K)) =
    BG.ExtrapolateBG ext Initial_Pop gamma delta H /\
  firstn H (LN.ExtrapolateBG ext Initial_Pop gamma delta alpha (H + K)) =
    LN.ExtrapolateBG ext Initial_Pop gamma delta alpha H.
Proof.
  destruct (firstn_seq_app 1 H K) as [Happ Hlen].
  assert (Hfirst : firstn H (seq 1 (H + K)) = seq 1 H).
  { rewrite Happ. rewrite <- Hlen at 1.
    rewrite firstn_app, Nat.sub_diag, firstn_all. simpl.
    apply app_nil_r. }
  split.
  - unfold BG.ExtrapolateBG. rewrite !arange_1.
    rewrite BG_out_frame_firstn, !firstn_map, Hfirst.
    assert (E : forall g : nat -> npfloat,
               firstn H (pd_cumsum (map g (seq 1 (H + K)))) =
               pd_cumsum (map g (seq 1 H))).
    { intros g. unfold pd_cumsum. rewrite Happ, map_app.
      rewrite <- (length_map g (seq 1 H)) in Hlen.
      rewrite <- Hlen at 1. apply pd_cumsum_from_firstn. }
    now rewrite E.
  - unfold LN.ExtrapolateBG. rewrite !arange_1.
    rewrite LN_out_frame_firstn, !firstn_map, Hfirst.
    assert (E : forall g : nat -> R,
               firstn H (cumsum (map g (seq 1 (H + K)))) =
               cumsum (map g (seq 1 H))).
    { intros g. unfold cumsum. rewrite Happ, map_app.
      rewrite <- (length_map g (seq 1 H)) in Hlen.
      rewrite <- Hlen at 1. apply cumsum_from_firstn. }
    now rewrite E.
Qed.



End ProjectionExtras.

(* ================================================================== *)
(** ** The friend dictionary *)

Module FRDict.
Import FR.

Lemma dict_get_set (d : dict) (k : Z) (v : list Z) (a : Z) :
  dict_get (dict_set d k v) a =
  if Z.eqb k a then Some v else dict_get d a.
Proof.
  induction d as [| [k' v'] d IH]; simpl; [reflexivity|].
  destruct (Z.eqb_spec k' k) as [-> | Hk]; simpl.
  - now destruct (Z.eqb k a).
  - rewrite IH. destruct (Z.eqb_spec k' a) as [-> | Ha]; [| reflexivity].
    destruct (Z.eqb_spec k a); [congruence | reflexivity].
Qed.

Lemma dict_get_append (d : dict) (k x : Z) (a : Z) :
  dict_get (dict_append d k x) a =
  if Z.eqb k a then option_map (fun l => l ++ [x]) (dict_get d a)
  else dict_get d a.
Proof.
  induction d as [| [k' v'] d IH]; simpl.
  - now destruct (Z.eqb k a).
  - destruct (Z.eqb_spec k' k) as [-> | Hk]; simpl.
    + now destruct (Z.eqb k a).
    + rewrite IH. destruct (Z.eqb_spec k' a) as [-> | Ha]; [| reflexivity].
      destruct (Z.eqb_spec k a); [congruence | reflexivity].
Qed.

Lemma holds_ext (d : dict) (g g' : Z -> list Z) :
  (forall a, g a = g' a) -> holds d g -> holds d g'.
Proof. intros E H a. rewrite <- E. apply H. Qed.

(** One of the two branches of [populate_dict]. *)
Lemma holds_add (d : dict) (g : Z -> list Z) (k v : Z) :
  holds d g ->
  holds (if negb (dict_contains d k) then dict_set d k [v]
         else dict_append d k v)
        (fun a => g a ++ (if Z.eqb k a then [v] else [])).
Proof.
  intros H a. unfold dict_contains. rewrite (H k).
  destruct (g k) as [| b l] eqn:Hk; cbn [negb].
  - rewrite dict_get_set, (H a).
    destruct (Z.eqb_spec k a) as [<- | Hka].
    + now rewrite Hk.
    + rewrite app_nil_r. reflexivity.
  - rewrite dict_get_append, (H a).
    destruct (Z.eqb_spec k a) as [<- | Hka].
    + rewrite Hk. reflexivity.
    + rewrite app_nil_r. reflexivity.
Qed.

Lemma holds_populate_dict (d : dict) (g : Z -> list Z) (x y : Z) :
  holds d g ->
  holds (populate_dict x y d)
        (fun a => g a ++ (if Z.eqb x a then [y] else []) ++
                         (if Z.eqb y a then [x] else [])).
Proof.
  intros H. unfold populate_dict.
  apply (holds_ext _ (fun a => (g a ++ (if Z.eqb x a then [y] else [])) ++
                               (if Z.eqb y a then [x] else []))).
  - intros a. now rewrite app_assoc.
  - apply holds_add. now apply holds_add.
Qed.

Lemma holds_fold (raw_data : list (Z * Z)) (d : dict) (g : Z -> list Z) :
  holds d g ->
  holds (fold_left (fun d xy => populate_dict (fst xy) (snd xy) d)
                   raw_data d)
        (fun a => g a ++ partners raw_data a).
Proof.
  revert d g. induction raw_data as [| [x y] tl IH]; intros d g H.
  - simpl. apply (holds_ext _ g); [| exact H].
    intros a. now rewrite app_nil_r.
  - cbn [fold_left fst snd].
    apply (holds_ext _ (fun a => (g a ++ (if Z.eqb x a then [y] else []) ++
                                         (if Z.eqb y a then [x] else [])) ++
                                 partners tl a)).
    + intros a. cbn [partners]. now rewrite <- !app_assoc.
    + apply IH. now apply holds_populate_dict.
Qed.

Lemma holds_populate (raw_data : list (Z * Z)) :
  holds (populate raw_data) (partners raw_data).
Proof.
  unfold populate.
  apply (holds_ext _ (fun a => [] ++ partners raw_data a));
    [reflexivity|].
  apply holds_fold. intros a. reflexivity.
Qed.

Lemma In_single (x y a b : Z) :
  In b (if Z.eqb x a then [y] else []) <-> (x, y) = (a, b).
Proof.
  destruct (Z.eqb_spec x a) as [-> | Hx]; simpl; split.
  - intros [-> | []]. reflexivity.
  - intros H. injection H as ->. now left.
  - intros [].
  - intros H. injection H as -> _. contradiction.
Qed.

Lemma In_partners (raw_data : list (Z * Z)) (a b : Z) :
  In b (partners raw_data a) <-> friends raw_data a b.
Proof.
  unfold friends. induction raw_data as [| [x y] tl IH].
  - simpl. tauto.
  - cbn [partners In]. rewrite !in_app_iff, IH, !In_single.
    split; intros H.
    + destruct H as [H | [H | [H | H]]]; auto.
      injection H as -> ->. auto.
    + destruct H as [[H | H] | [H | H]]; auto.
      injection H as -> ->. auto.
Qed.

Lemma friends_sym (raw_data : list (Z * Z)) (a b : Z) :
  friends raw_data a b -> friends raw_data b a.
Proof. unfold friends. tauto. Qed.

Lemma dict_get_populate_some (raw_data : list (Z * Z)) (a b : Z) :
  friends raw_data a b ->
  dict_get (populate raw_data) a = Some (partners raw_data a).
Proof.
  intros H. rewrite (holds_populate raw_data a).
  apply In_partners in H. destruct (partners raw_data a); [easy | reflexivity].
Qed.

Lemma dict_get_populate_none (raw_data : list (Z * Z)) (a : Z) :
  (forall b, ~ friends raw_data a b) ->
  dict_get (populate raw_data) a = None.
Proof.
  intros H. rewrite (holds_populate raw_data a).
  destruct (partners raw_data a) as [| b l] eqn:E; [reflexivity|].
  exfalso. apply (H b). apply In_partners. rewrite E. now left.
Qed.

End FRDict.

(* ================================================================== *)
(** ** Candidates and their scores *)

Module FRFacts.
Import FR FRDict.

Lemma mem_In (x : Z) (s : list Z) : mem x s = true <-> In x s.
Proof.
  unfold mem. rewrite existsb_exists. split.
  - intros [y [Hy E]]. apply Z.eqb_eq in E. now subst.
  - intros H. exists x. split; [assumption | apply Z.eqb_refl].
Qed.

Lemma In_set_of (x : Z) (l : list Z) : In x (set_of l) <-> In x l.
Proof. apply nodup_In. Qed.

Lemma NoDup_set_of (l : list Z) : NoDup (set_of l).
Proof. apply NoDup_nodup. Qed.

Lemma In_set_diff (x : Z) (s t : list Z) :
  In x (set_diff s t) <-> In x s /\ ~ In x t.
Proof.
  unfold set_diff. rewrite filter_In, negb_true_iff, <- (mem_In x t).
  destruct (mem x t); intuition congruence.
Qed.

Lemma In_set_inter (x : Z) (s t : list Z) :
  In x (set_inter s t) <-> In x s /\ In x t.
Proof. unfold set_inter. now rewrite filter_In, mem_In. Qed.

Lemma In_discard (x y : Z) (s : list Z) :
  In y (discard x s) <-> In y s /\ y <> x.
Proof.
  unfold discard. rewrite filter_In, negb_true_iff, Z.eqb_neq. tauto.
Qed.

Lemma set_inter_length (s t : list Z) :
  NoDup s -> (length (set_inter s t) <= length t)%nat.
Proof.
  intros Hs. apply NoDup_incl_length.
  - now apply NoDup_filter.
  - intros x Hx. now apply In_set_inter in Hx.
Qed.

Lemma extend_all_populate (raw_data : list (Z * Z)) (u : Z)
    (l acc : list Z) :
  (forall f, In f l -> friends raw_data f u) ->
  extend_all (populate raw_data) l acc =
  Returns (acc ++ flat_map (partners raw_data) l).
Proof.
  revert acc. induction l as [| f l IH]; intros acc H.
  - simpl. now rewrite app_nil_r.
  - cbn [extend_all flat_map].
    rewrite (dict_get_populate_some raw_data f u) by (apply H; now left).
    rewrite IH by (intros g Hg; apply H; now right).
    now rewrite app_assoc.
Qed.

Lemma map_scores_populate (raw_data : list (Z * Z)) (A cands : list Z) :
  (forall c, In c cands -> exists f, friends raw_data c f) ->
  map_scores (populate raw_data) A cands =
  Returns (map (fun c => (c, (length (set_inter A
                                        (set_of (partners raw_data c))),
                              length (set_of (partners raw_data c)))))
               cands).
Proof.
  induction cands as [| c cands IH]; intros H; [reflexivity|].
  cbn [map_scores map]. unfold pairwise_score.
  destruct (H c (or_introl eq_refl)) as [f Hf].
  rewrite (dict_get_populate_some raw_data c f Hf).
  cbn [bind]. rewrite IH by (intros c' Hc'; apply H; now right).
  reflexivity.
Qed.

Lemma frame_map (u : Z) (raw_data : list (Z * Z)) (cands : list Z)
    (start : nat) :
  frame start
        (map (fun c => (c, (length (set_inter (set_of (partners raw_data u))
                                              (set_of (partners raw_data c))),
                            length (set_of (partners raw_data c)))))
             cands) =
  map (fun ic => mkRow (fst ic) (snd ic)
                       (common_count raw_data u (snd ic))
                       (friend_count raw_data (snd ic)))
      (combine (seq start (length cands)) cands).
Proof.
  revert start. induction cands as [| c cands IH]; intros start.
  - reflexivity.
  - cbn [map frame length seq combine fst snd]. now rewrite IH.
Qed.

Lemma map_snd_combine_seq (cands : list Z) (start : nat) :
  map snd (combine (seq start (length cands)) cands) = cands.
Proof.
  revert start. induction cands as [| c cands IH]; intros start.
  - reflexivity.
  - cbn [length seq combine map snd]. now rewrite IH.
Qed.

(** *** The sort *)

Lemma before_false (a b : row) : before a b = false <-> ranks_ge b a.
Proof.
  unfold before, ranks_ge.
  rewrite orb_false_iff, andb_false_iff, !Nat.ltb_ge, Nat.eqb_neq. lia.
Qed.

Lemma before_true (a b : row) : before a b = true -> ranks_ge a b.
Proof.
  unfold before, ranks_ge.
  rewrite orb_true_iff, andb_true_iff, !Nat.ltb_lt, Nat.eqb_eq. lia.
Qed.

Lemma ranks_ge_trans (a b c : row) :
  ranks_ge a b -> ranks_ge b c -> ranks_ge a c.
Proof. unfold ranks_ge. lia. Qed.

Lemma insert_perm (r : row) (l : list row) : Permutation (insert r l) (r :: l).
Proof.
  induction l as [| h t IH]; simpl; [reflexivity|].
  destruct (before h r); [| reflexivity].
  rewrite IH. apply perm_swap.
Qed.

Lemma sort_values_perm (l : list row) : Permutation (sort_values l) l.
Proof.
  induction l as [| r t IH]; simpl; [reflexivity|].
  rewrite insert_perm. now constructor.
Qed.

Lemma insert_sorted (r : row) (l : list row) :
  StronglySorted ranks_ge l -> StronglySorted ranks_ge (insert r l).
Proof.
  induction l as [| h t IH]; intros Hs; simpl.
  - constructor; constructor.
  - inversion Hs as [| h' t' Ht Hall]; subst.
    destruct (before h r) eqn:E.
    + constructor; [now apply IH|].
      apply Forall_forall. intros x Hx.
      apply (Permutation_in _ (insert_perm r t)) in Hx.
      destruct Hx as [<- | Hx]; [now apply before_true|].
      rewrite Forall_forall in Hall. now apply Hall.
    + apply before_false in E. constructor; [assumption|].
      constructor; [assumption|].
      apply Forall_impl with (P := ranks_ge h); [| assumption].
      intros x Hx. now apply ranks_ge_trans with h.
Qed.

Lemma sort_values_sorted (l : list row) :
  StronglySorted ranks_ge (sort_values l).
Proof.
  induction l as [| r t IH]; simpl; [constructor | now apply insert_sorted].
Qed.

Lemma sorted_firstn (k : nat) (l : list row) :
  StronglySorted ranks_ge l -> StronglySorted ranks_ge (firstn k l).
Proof.
  revert l. induction k as [| k IH]; intros l Hs; [constructor|].
  destruct l as [| h t]; [constructor|].
  inversion Hs as [| h' t' Ht Hall]; subst. cbn [firstn].
  constructor; [now apply IH|].
  apply Forall_forall. intros x Hx. rewrite Forall_forall in Hall.
  apply Hall. rewrite <- (firstn_skipn k t). apply in_or_app. now left.
Qed.

Lemma sorted_split (k : nat) (l : list row) (a b : row) :
  StronglySorted ranks_ge l ->
  In a (firstn k l) -> In b (skipn k l) -> ranks_ge a b.
Proof.
  revert l. induction k as [| k IH]; intros l Hs Ha Hb; [contradiction|].
  destruct l as [| h t]; [contradiction|].
  inversion Hs as [| h' t' Ht Hall]; subst.
  cbn [firstn skipn] in Ha, Hb. destruct Ha as [<- | Ha].
  - rewrite Forall_forall in Hall. apply Hall.
    rewrite <- (firstn_skipn k t). apply in_or_app. now right.
  - now apply (IH t).
Qed.

Lemma NoDup_firstn_map (k : nat) (l : list row) :
  NoDup (map candidate_id l) -> NoDup (map candidate_id (firstn k l)).
Proof.
  intros H. rewrite <- (firstn_skipn k l), map_app in H.
  now apply NoDup_app_remove_r in H.
Qed.

End FRFacts.

Module FRTheorems.
Import FR FRDict FRFacts.

(** X10.  The dictionary [recommend_friend] builds from the pairs of
    [raw_data] has a key exactly for the ids that some pair names, and
    the list under a key holds exactly that id's friends; so the
    dictionary is symmetric: whoever is in my list has me in theirs. *)
Theorem friend_dict_adjacency (raw_data : list (Z * Z)) (a : Z) :
  (dict_get (populate raw_data) a = None <->
   forall b, ~ friends raw_data a b) /\
  (forall l, dict_get (populate raw_data) a = Some l ->
             l = partners raw_data a /\
             (forall b, In b l <-> friends raw_data a b) /\
             (forall b, In b l ->
                        exists l', dict_get (populate raw_data) b = Some l' /\
                                   In a l')).
Proof.
  split.
  - split; [| apply dict_get_populate_none].
    intros Hnone b Hb.
    rewrite (dict_get_populate_some raw_data a b Hb) in Hnone. discriminate.
  - intros l Hl. rewrite (holds_populate raw_data a) in Hl.
    destruct (partners raw_data a) as [| b0 l0] eqn:E; [discriminate|].
    injection Hl as <-. rewrite <- E. split; [reflexivity|]. split.
    + intros b. apply In_partners.
    + intros b Hb. apply In_partners in Hb. exists (partners raw_data b).
      split.
      * apply (dict_get_populate_some raw_data b a). now apply friends_sym.
      * apply In_partners. now apply friends_sym.
Qed.

Section Order.
Variable set_order : list Z -> list Z.
Hypothesis set_order_perm : forall s, Permutation (set_order s) s.

Local Abbreviation candidates_of := (FR.candidates_of set_order).
Local Abbreviation scored := (FR.scored set_order).

Lemma identify_populate (raw_data : list (Z * Z)) (u b : Z) :
  friends raw_data u b ->
  identify_candidates set_order u (populate raw_data) =
  Returns (candidates_of raw_data u).
Proof.
  intros Hb. unfold identify_candidates.
  rewrite (dict_get_populate_some raw_data u b Hb).
  rewrite (extend_all_populate raw_data u).
  - reflexivity.
  - intros f Hf. apply In_partners in Hf. now apply friends_sym.
Qed.

Lemma In_candidates_of (raw_data : list (Z * Z)) (u c : Z) :
  In c (candidates_of raw_data u) <-> candidate raw_data u c.
Proof.
  unfold FR.candidates_of, candidate. split.
  - intros H. apply (Permutation_in _ (set_order_perm _)) in H.
    apply In_discard in H. destruct H as [H Hne].
    apply In_set_diff in H. destruct H as [Hfof Hnot].
    rewrite In_set_of in Hfof, Hnot. rewrite In_partners in Hnot.
    apply in_flat_map in Hfof. destruct Hfof as [f [Hf Hc]].
    rewrite In_partners in Hf, Hc. eauto.
  - intros [Hne [Hnot [f [Hf Hc]]]].
    apply (Permutation_in _ (Permutation_sym (set_order_perm _))).
    apply In_discard. split; [| assumption].
    apply In_set_diff. rewrite !In_set_of, In_partners. split; [| assumption].
    apply in_flat_map. exists f. now rewrite !In_partners.
Qed.

Lemma NoDup_candidates_of (raw_data : list (Z * Z)) (u : Z) :
  NoDup (candidates_of raw_data u).
Proof.
  unfold FR.candidates_of.
  apply (Permutation_NoDup (Permutation_sym (set_order_perm _))).
  unfold discard, set_diff. do 2 apply NoDup_filter. apply NoDup_set_of.
Qed.

Lemma candidate_has_friend (raw_data : list (Z * Z)) (u c : Z) :
  candidate raw_data u c -> exists f, friends raw_data c f.
Proof. intros [_ [_ [f [_ Hf]]]]. exists f. now apply friends_sym. Qed.

Lemma candidate_user_has_friend (raw_data : list (Z * Z)) (u c : Z) :
  candidate raw_data u c -> exists f, friends raw_data u f.
Proof. intros [_ [_ [f [Hf _]]]]. now exists f. Qed.

Lemma score_populate (raw_data : list (Z * Z)) (u b : Z) :
  friends raw_data u b ->
  score_candidates u (candidates_of raw_data u) (populate raw_data) =
  match candidates_of raw_data u with
  | [] => Raises ValueError
  | _ => Returns (scored raw_data u)
  end.
Proof.
  intros Hb. unfold score_candidates.
  rewrite (dict_get_populate_some raw_data u b Hb).
  rewrite map_scores_populate.
  2:{ intros c Hc. apply In_candidates_of in Hc.
      now apply (candidate_has_friend raw_data u). }
  cbn [bind]. unfold FR.scored. rewrite <- frame_map.
  now destruct (candidates_of raw_data u).
Qed.

Lemma recommend_populate (raw_data : list (Z * Z)) (u c : Z) (k : nat) :
  candidate raw_data u c ->
  recommend_friend set_order u k raw_data =
  Returns (firstn k (sort_values (scored raw_data u))).
Proof.
  intros Hc. destruct (candidate_user_has_friend _ _ _ Hc) as [b Hb].
  unfold recommend_friend.
  rewrite (identify_populate raw_data u b Hb). cbn [bind].
  rewrite (score_populate raw_data u b Hb).
  apply In_candidates_of in Hc.
  destruct (candidates_of raw_data u); [contradiction | reflexivity].
Qed.

Lemma scored_ids (raw_data : list (Z * Z)) (u : Z) :
  map candidate_id (scored raw_data u) = candidates_of raw_data u.
Proof.
  unfold FR.scored. rewrite map_map. cbn [candidate_id].
  rewrite <- (map_map snd (fun c => c)), map_snd_combine_seq. apply map_id.
Qed.

Lemma scored_rows (raw_data : list (Z * Z)) (u : Z) (r : row) :
  In r (scored raw_data u) ->
  candidate raw_data u (candidate_id r) /\
  common_friends r = common_count raw_data u (candidate_id r) /\
  number_friends r = friend_count raw_data (candidate_id r).
Proof.
  intros Hr. split.
  - apply In_candidates_of. rewrite <- scored_ids.
    now apply in_map.
  - unfold FR.scored in Hr. apply in_map_iff in Hr.
    destruct Hr as [[i c] [<- _]]. split; reflexivity.
Qed.

Lemma common_count_bounds (raw_data : list (Z * Z)) (u c : Z) :
  candidate raw_data u c ->
  (1 <= common_count raw_data u c <= friend_count raw_data c)%nat.
Proof.
  intros [_ [_ [f [Hf Hc]]]]. unfold common_count, friend_count. split.
  - assert (H : In f (set_inter (set_of (partners raw_data u))
                                (set_of (partners raw_data c)))).
    { apply In_set_inter. rewrite !In_set_of, !In_partners.
      split; [assumption | now apply friends_sym]. }
    destruct (set_inter _ _); [contradiction | simpl; lia].
  - apply set_inter_length, NoDup_set_of.
Qed.

(** X11.  On the dictionary built from [raw_data],
    [identify_candidates] raises [KeyError] for a user no pair names;
    for any other user it returns, without repetition, exactly the
    friends of friends who are neither the user nor the user's
    friends. *)
Theorem identify_candidates_spec (raw_data : list (Z * Z)) (u : Z) :
  ((forall b, ~ friends raw_data u b) ->
   identify_candidates set_order u (populate raw_data) =
     Raises (KeyError u)) /\
  ((exists b, friends raw_data u b) ->
   exists l : list Z,
     identify_candidates set_order u (populate raw_data) = Returns l /\
     NoDup l /\
     forall c, In c l <-> candidate raw_data u c).
Proof.
  split.
  - intros H. unfold identify_candidates.
    now rewrite (dict_get_populate_none raw_data u H).
  - intros [b Hb]. exists (candidates_of raw_data u).
    split; [now apply (identify_populate raw_data u b)|].
    split; [apply NoDup_candidates_of | apply In_candidates_of].
Qed.

(** X12.  [recommend_friend] raises [KeyError] for a user no pair of
    [raw_data] names, and [ValueError] for a user who has friends but no
    candidate (every friend of a friend is the user or a friend
    already). *)
Theorem recommend_friend_errors
    (raw_data : list (Z * Z)) (u : Z) (k : nat) :
  ((forall b, ~ friends raw_data u b) ->
   recommend_friend set_order u k raw_data = Raises (KeyError u)) /\
  ((exists b, friends raw_data u b) ->
   (forall c, ~ candidate raw_data u c) ->
   recommend_friend set_order u k raw_data = Raises ValueError).
Proof.
  split.
  - intros H. unfold recommend_friend, identify_candidates.
    now rewrite (dict_get_populate_none raw_data u H).
  - intros [b Hb] Hnone. unfold recommend_friend.
    rewrite (identify_populate raw_data u b Hb). cbn [bind].
    rewrite (score_populate raw_data u b Hb).
    destruct (candidates_of raw_data u) as [| c l] eqn:E; [reflexivity|].
    exfalso. apply (Hnone c). apply In_candidates_of. rewrite E. now left.
Qed.

(** X13.  For a user with at least one candidate, [recommend_friend]
    returns at most [recommendations] rows, no candidate twice; each row
    is a candidate with its number of common friends (at least one, at
    most its number of friends) and its number of friends. *)
Theorem recommend_friend_rows
    (raw_data : list (Z * Z)) (u : Z) (k : nat) :
  (exists c, candidate raw_data u c) ->
  exists rows : list row,
    recommend_friend set_order u k raw_data = Returns rows /\
    (length rows <= k)%nat /\
    NoDup (map candidate_id rows) /\
    forall r, In r rows ->
      candidate raw_data u (candidate_id r) /\
      common_friends r = common_count raw_data u (candidate_id r) /\
      number_friends r = friend_count raw_data (candidate_id r) /\
      (1 <= common_friends r <= number_friends r)%nat.
Proof.
  intros [c Hc]. eexists. split; [now apply (recommend_populate _ _ c)|].
  split; [apply firstn_le_length|]. split.
  - apply NoDup_firstn_map.
    apply (Permutation_NoDup
             (Permutation_map candidate_id
                (Permutation_sym (sort_values_perm (scored raw_data u))))).
    rewrite scored_ids. apply NoDup_candidates_of.
  - intros r Hr.
    assert (Hin : In r (scored raw_data u)).
    { apply (Permutation_in _ (sort_values_perm _)).
      rewrite <- (firstn_skipn k (sort_values _)).
      apply in_or_app. now left. }
    destruct (scored_rows _ _ _ Hin) as [H1 [H2 H3]].
    split; [assumption|]. split; [assumption|]. split; [assumption|].
    rewrite H2, H3. now apply common_count_bounds.
Qed.

(** X14.  The rows [recommend_friend] returns are in descending order of
    common friends, then of number of friends; a candidate is left out
    only when [recommendations] rows are returned, and then it ranks no
    higher than any of them. *)
Theorem recommend_friend_ranking
    (raw_data : list (Z * Z)) (u : Z) (k : nat) :
  (exists c, candidate raw_data u c) ->
  exists rows : list row,
    recommend_friend set_order u k raw_data = Returns rows /\
    StronglySorted ranks_ge rows /\
    forall c, candidate raw_data u c ->
      In c (map candidate_id rows) \/
      (length rows = k /\
       forall r, In r rows ->
         (common_count raw_data u c < common_friends r)%nat \/
         (common_friends r = common_count raw_data u c /\
          (friend_count raw_data c <= number_friends r)%nat)).
Proof.
  intros [c0 Hc0]. eexists.
  split; [now apply (recommend_populate _ _ c0)|].
  split; [apply sorted_firstn, sort_values_sorted|].
  intros c Hc.
  assert (Hrow : exists b, In b (sort_values (scored raw_data u)) /\
                           candidate_id b = c).
  { apply In_candidates_of in Hc. rewrite <- scored_ids in Hc.
    apply in_map_iff in Hc. destruct Hc as [b [E Hb]]. exists b.
    split; [| assumption].
    now apply (Permutation_in _ (Permutation_sym (sort_values_perm _))). }
  destruct Hrow as [b [Hb E]].
  rewrite <- (firstn_skipn k (sort_values _)) in Hb.
  apply in_app_or in Hb. destruct Hb as [Hb | Hb].
  - left. rewrite <- E. now apply in_map.
  - right. split.
    + apply firstn_length_le.
      destruct (Nat.le_gt_cases k (length (sort_values (scored raw_data u))))
        as [Hle | Hgt]; [assumption|].
      rewrite skipn_all2 in Hb by lia. contradiction.
    + intros r Hr.
      pose proof (sorted_split k _ r b (sort_values_sorted _) Hr Hb) as Hge.
      assert (Hin : In b (scored raw_data u)).
      { apply (Permutation_in _ (sort_values_perm _)).
        rewrite <- (firstn_skipn k (sort_values _)).
        apply in_or_app. now right. }
      destruct (scored_rows _ _ _ Hin) as [_ [H2 H3]].
      rewrite E in H2, H3. unfold ranks_ge in Hge. rewrite H2, H3 in Hge.
      exact Hge.
Qed.

End Order.

(** The model runs: on the small network, user 1 is offered user 3, with
    two friends in common out of three. *)
Example recommend_friend_sample :
  recommend_friend (fun s => s) 1 5 sample = Returns [mkRow 0 3 2 3].
Proof. reflexivity. Qed.

Example recommend_friend_lonely_pair :
  recommend_friend (fun s => s) 1 5 [(1, 2)%Z] = Raises ValueError.
Proof. reflexivity. Qed.

Lemma sample_candidate : candidate sample 1 3.
Proof.
  unfold candidate, friends, sample. split; [discriminate|]. split.
  - simpl. intuition discriminate.
  - exists 2%Z. simpl. auto.
Qed.

(** X11 on the small network, for user 1. *)
Lemma identify_candidates_spec_witness :
  exists l : list Z,
    identify_candidates (fun s => s) 1 (populate sample) = Returns l /\
    NoDup l /\
    forall c, In c l <-> candidate sample 1 c.
Proof.
  apply (proj2 (identify_candidates_spec (fun s => s)
                  (fun s => Permutation_refl s) sample 1)).
  exists 2%Z. unfold friends, sample. simpl. auto.
Defined.

(** X12 on a network of one pair: user 1 has a friend and no
    candidate. *)
Lemma recommend_friend_errors_witness :
  recommend_friend (fun s => s) 1 5 [(1, 2)%Z] = Raises ValueError.
Proof.
  apply (proj2 (recommend_friend_errors (fun s => s)
                  (fun s => Permutation_refl s) [(1, 2)%Z] 1 5)).
  - exists 2%Z. unfold friends. simpl. auto.
  - intros c [Hne [_ [f [Hf Hc]]]]. unfold friends in Hf, Hc.
    simpl in Hf, Hc.
    destruct Hf as [[Hf | []] | [Hf | []]]; injection Hf as <-;
      destruct Hc as [[Hc | []] | [Hc | []]]; try discriminate Hc;
      injection Hc as <-; try contradiction; congruence.
Defined.

(** X13 on the small network, for user 1. *)
Lemma recommend_friend_rows_witness :
  exists rows : list row,
    recommend_friend (fun s => s) 1 5 sample = Returns rows /\
    (length rows <= 5)%nat /\
    NoDup (map candidate_id rows) /\
    forall r, In r rows ->
      candidate sample 1 (candidate_id r) /\
      common_friends r = common_count sample 1 (candidate_id r) /\
      number_friends r = friend_count sample (candidate_id r) /\
      (1 <= common_friends r <= number_friends r)%nat.
Proof.
  apply (recommend_friend_rows (fun s => s) (fun s => Permutation_refl s)).
  exists 3%Z. apply sample_candidate.
Defined.

(** X14 on the small network, for user 1. *)
Lemma recommend_friend_ranking_witness :
  exists rows : list row,
    recommend_friend (fun s => s) 1 5 sample = Returns rows /\
    StronglySorted ranks_ge rows /\
    forall c, candidate sample 1 c ->
      In c (map candidate_id rows) \/
      (length rows = 5%nat /\
       forall r, In r rows ->
         (common_count sample 1 c < common_friends r)%nat \/
         (common_friends r = common_count sample 1 c /\
          (friend_count sample c <= number_friends r)%nat)).
Proof.
  apply (recommend_friend_ranking (fun s => s) (fun s => Permutation_refl s)).
  exists 3%Z. apply sample_candidate.
Defined.

End FRTheorems.
